(** * Navigation::ScanMessage and NaviStatus (navigation_type.h)

    A shallow embedding of [include/navigation/navigation_type.h]:
    the [NaviStatus] enumeration with its name lookup, and the
    [ScanMessage] class, which keeps one lidar sweep either as [x_y]
    samples or as [radius_theta] samples, converts between the two in
    its getters, sorts the polar form by [theta] on demand and replaces
    every radius by the smallest radius within [delta_theta].

    The C++ [float]s are IEEE-754 binary32 values; they are modelled by
    the Standard Library's [spec_float] at precision 24 and maximal
    exponent 128, so that subtraction rounds as the hardware does and
    NaN, the infinities and the two zeros are present.  The functions of
    the C and C++ libraries that the header calls but does not define
    ([cosf], [sinf], [hypotf], [atan2f], [std::sort]) are taken through
    interfaces. *)

From Stdlib Require Import ZArith Lia Bool String.
From Stdlib Require Import Floats.SpecFloat.
From stdpp Require Import base list sorting.

(** * The program *)

(** ** binary32 arithmetic *)

Module Float32.

Local Open Scope Z_scope.

Definition prec : Z := 24.
Definition emax : Z := 128.

Definition float : Set := spec_float.

(** [a - b] and [a * b] on [float] operands, rounded to nearest even. *)
Definition fsub (a b : float) : float := SFsub prec emax a b.
Definition fmul (a b : float) : float := SFmul prec emax a b.

(** [fabs]: clears the sign; exact. *)
Definition fabs (a : float) : float := SFabs a.

(** The comparisons [a < b], [a <= b] and [a > b]; each is false as soon
    as one operand is NaN. *)
Definition flt (a b : float) : bool := SFltb a b.
Definition fle (a b : float) : bool := SFleb a b.
Definition fgt (a b : float) : bool := SFltb b a.

Definition is_nan (a : float) : bool :=
  match a with S754_nan => true | _ => false end.

Definition is_finite (a : float) : bool :=
  match a with S754_zero _ | S754_finite _ _ _ => true | _ => false end.

(** [fmin] of the C library (ISO C 7.12.12.3): the smaller argument, and
    the other argument when one is NaN.  On a tie the first argument is
    returned, as glibc does.  The operands are [float]s promoted to
    [double] and the result is narrowed back, both without rounding. *)
Definition fmin (a b : float) : float :=
  if fle a b then a
  else if fgt a b then b
  else if is_nan b then a else b.

(** Narrowing a [double] to [float]. *)
Definition double_to_float (d : spec_float) : float :=
  match d with
  | S754_finite s m e => binary_round prec emax s m e
  | _ => d
  end.

(** [M_PI] of <math.h>, 3.14159265358979323846 as a binary64 value
    (0x400921FB54442D18). *)
Definition M_PI : spec_float := S754_finite false 7074237752028440 (-51).

(** The [double] literals 0.5 and 512. *)
Definition d_half : spec_float := S754_finite false 4503599627370496 (-53).
Definition d_512 : spec_float := S754_finite false 4503599627370496 (-43).

(** A [float] from an integer mantissa and a binary exponent. *)
Definition of_Z_exp (m e : Z) : float := binary_normalize prec emax m e false.

End Float32.

Import Float32.

Module Navigation.

(** ** WayPoint *)

(** [Eigen::Vector3f]: three [float] coefficients. *)
Record Vector3f : Set := mk_Vector3f {
  coeff_x : float; coeff_y : float; coeff_z : float
}.

Record WayPoint : Set := mk_WayPoint {
  timestamp_sec : float;
  xyz : Vector3f;
  direction : Vector3f;
  tag : Z
}.

(** The [float] literal [-1.f]. *)
Definition minus_one : float := Eval vm_compute in of_Z_exp (-1) 0.

(** [WayPoint()] initializes [timestamp_sec], [direction] and [tag]; [xyz]
    is default-constructed, which for a fixed-size Eigen vector leaves
    the coefficients as the storage held them: the argument
    [indeterminate]. *)
Definition WayPoint_default (indeterminate : Vector3f) : WayPoint :=
  {| timestamp_sec := minus_one;
     xyz := indeterminate;
     direction := mk_Vector3f (S754_zero false) (S754_zero false)
                    (S754_zero false);
     tag := 0%Z |}.

(** [bool operator <(const WayPoint& rhs) const]. *)
Definition WayPoint_lt (lhs rhs : WayPoint) : bool :=
  flt (timestamp_sec lhs) (timestamp_sec rhs).

(** ** NaviStatus *)

Inductive NaviStatus : Set :=
  | NORMAL
  | LOST
  | OBSTACLE_AVOID
  | STOP
  | STANDBY
  | MANUAL
  | LOST_RECOVERY.

Definition NaviStatus_eqb (a b : NaviStatus) : bool :=
  match a, b with
  | NORMAL, NORMAL | LOST, LOST | OBSTACLE_AVOID, OBSTACLE_AVOID
  | STOP, STOP | STANDBY, STANDBY | MANUAL, MANUAL
  | LOST_RECOVERY, LOST_RECOVERY => true
  | _, _ => false
  end.

Definition NaviStatusToString (navi_status : NaviStatus) : string :=
  if NaviStatus_eqb navi_status NORMAL then "NORNAL"
  else if NaviStatus_eqb navi_status LOST then "LOST"
  else if NaviStatus_eqb navi_status LOST_RECOVERY then "LOST_RECOVERY"
  else if NaviStatus_eqb navi_status OBSTACLE_AVOID then "OBSTACLE_AVOID"
  else if NaviStatus_eqb navi_status STOP then "STOP"
  else if NaviStatus_eqb navi_status STANDBY then "STANDBY"
  else "unknown".

(** ** Samples *)

Record radius_theta : Set := mk_rt { radius : float; theta : float }.

Record x_y : Set := mk_xy { x : float; y : float }.

(** ** compute_smallest_r_within_delta_theta *)

(** [const float delta_theta = 0.5 * M_PI / 512;] computed in [double] and
    narrowed to [float]. *)
Definition delta_theta : float :=
  Eval vm_compute in
    double_to_float (SFdiv 53 1024 (SFmul 53 1024 d_half M_PI) d_512).

(** The test that leaves both inner loops:
    [fabs(scan_rt_copy[j].theta - rt.theta) > delta_theta]. *)
Definition beyond_delta_theta (c rt : radius_theta) : bool :=
  fgt (fabs (fsub (theta c) (theta rt))) delta_theta.

(** [rt.radius = fmin(rt.radius, scan_rt_copy[j].radius);] *)
Definition take_smaller (rt c : radius_theta) : radius_theta :=
  {| radius := fmin (radius rt) (radius c); theta := theta rt |}.

(** The first inner loop, [while (j >= 0) { ...; j--; }], entered at
    index [j]: it reads the copy at [j], [j-1], ..., [0] and stops at the
    first entry beyond [delta_theta]. *)
Fixpoint while_down (scan_rt_copy : list radius_theta)
    (rt : radius_theta) (j : nat) : radius_theta :=
  match scan_rt_copy !! j with
  | None => rt
  | Some c =>
      if beyond_delta_theta c rt then rt
      else
        match j with
        | O => take_smaller rt c
        | S j' => while_down scan_rt_copy (take_smaller rt c) j'
        end
  end.

(** The second inner loop, [while (j < scan_rt_copy.size()) { ...; j++; }].
    [fuel] bounds the number of iterations; [size - j] is always enough,
    see [while_up_fuel]. *)
Fixpoint while_up (fuel : nat) (scan_rt_copy : list radius_theta)
    (rt : radius_theta) (j : nat) : radius_theta :=
  match fuel with
  | O => rt
  | S fuel' =>
      match scan_rt_copy !! j with
      | None => rt
      | Some c =>
          if beyond_delta_theta c rt then rt
          else while_up fuel' scan_rt_copy (take_smaller rt c) (S j)
      end
  end.

(** What one iteration of the outer loop leaves in cell [i] of the live vector, given
    the entry [rt] it finds there. *)
Definition smallest_at (scan_rt_copy : list radius_theta)
    (rt : radius_theta) (i : nat) : radius_theta :=
  while_up (length scan_rt_copy - i) scan_rt_copy
    (while_down scan_rt_copy rt i) i.

(** The body of the outer [for] loop.  [rt] is a reference into the live
    vector; nothing else reads that cell during the iteration,
    so the writes through the reference are one update of cell [i]. *)
Definition for_body (scan_rt_copy : list radius_theta)
    (scan_rt : list radius_theta) (i : nat) : list radius_theta :=
  match scan_rt !! i with
  | None => scan_rt
  | Some rt => <[i := smallest_at scan_rt_copy rt i]> scan_rt
  end.

Definition compute_smallest_r_within_delta_theta
    (scan_rt : list radius_theta) : list radius_theta :=
  let scan_rt_copy := scan_rt in
  foldl (for_body scan_rt_copy) scan_rt (seq 0 (length scan_rt_copy)).

(** ** The C and C++ library functions the class calls *)

(** <math.h>: the single-precision functions used by the conversions. *)
Class Libm : Type := {
  cosf : float -> float;
  sinf : float -> float;
  hypotf : float -> float -> float;
  atan2f : float -> float -> float
}.

(** What [std::sort] asks of its comparator on the values it is given: a
    strict weak ordering. *)
Record strict_weak_ordering_on {A : Type} (comp : A -> A -> bool)
    (l : list A) : Prop := {
  swo_irrefl : forall a, a ∈ l -> comp a a = false;
  swo_trans : forall a b c, a ∈ l -> b ∈ l -> c ∈ l ->
    comp a b = true -> comp b c = true -> comp a c = true;
  swo_equiv_trans : forall a b c, a ∈ l -> b ∈ l -> c ∈ l ->
    comp a b = false -> comp b a = false ->
    comp b c = false -> comp c b = false ->
    comp a c = false /\ comp c a = false
}.

(** <algorithm>: [std::sort(first, last, comp)].  The standard fixes its
    result only up to the order of equivalent elements: a rearrangement
    of the range in which no later element compares less than an earlier
    one, provided [comp] is a strict weak ordering. *)
Class StdSort : Type := {
  std_sort : forall {A : Type}, (A -> A -> bool) -> list A -> list A;
  std_sort_perm : forall (A : Type) (comp : A -> A -> bool) (l : list A),
    std_sort comp l ≡ₚ l;
  std_sort_sorted : forall (A : Type) (comp : A -> A -> bool) (l : list A),
    strict_weak_ordering_on comp l ->
    StronglySorted (fun a b => comp b a = false) (std_sort comp l)
}.

(** ** ScanMessage *)

(** [std::chrono::steady_clock::time_point], as a tick count. *)
Definition time_point : Set := Z.

Record ScanMessage : Set := mk_ScanMessage {
  tp_ : time_point;
  scan_xy_ : list x_y;
  scan_rt_ : list radius_theta;
  sorted_by_theta_ : bool
}.

Definition with_scan_xy (m : ScanMessage) (v : list x_y) : ScanMessage :=
  {| tp_ := tp_ m; scan_xy_ := v; scan_rt_ := scan_rt_ m;
     sorted_by_theta_ := sorted_by_theta_ m |}.

Definition with_scan_rt (m : ScanMessage) (v : list radius_theta)
    : ScanMessage :=
  {| tp_ := tp_ m; scan_xy_ := scan_xy_ m; scan_rt_ := v;
     sorted_by_theta_ := sorted_by_theta_ m |}.

Definition with_sorted_by_theta (m : ScanMessage) (b : bool) : ScanMessage :=
  {| tp_ := tp_ m; scan_xy_ := scan_xy_ m; scan_rt_ := scan_rt_ m;
     sorted_by_theta_ := b |}.

Definition with_tp (m : ScanMessage) (t : time_point) : ScanMessage :=
  {| tp_ := t; scan_xy_ := scan_xy_ m; scan_rt_ := scan_rt_ m;
     sorted_by_theta_ := sorted_by_theta_ m |}.

(** [std::vector::empty]. *)
Definition empty {A : Type} (v : list A) : bool :=
  match v with [] => true | _ :: _ => false end.

(** [std::vector::push_back]. *)
Definition push_back {A : Type} (v : list A) (a : A) : list A := v ++ [a].

(** *** Constructors *)

(** [ScanMessage() {}] has no initializer for [sorted_by_theta_]: the
    member is a [bool] without a default member initializer, so the flag
    holds whatever the storage held.  That value is the argument
    [indeterminate].  The vectors and the time point are
    default-constructed (empty, the clock's epoch). *)
Definition ScanMessage_default (indeterminate : bool) : ScanMessage :=
  {| tp_ := 0%Z; scan_xy_ := []; scan_rt_ := [];
     sorted_by_theta_ := indeterminate |}.

Definition ScanMessage_of_tp (input_tp : time_point) : ScanMessage :=
  {| tp_ := input_tp; scan_xy_ := []; scan_rt_ := [];
     sorted_by_theta_ := false |}.

Definition ScanMessage_of_xy (input_scan_xy : list x_y) : ScanMessage :=
  {| tp_ := 0%Z; scan_xy_ := input_scan_xy; scan_rt_ := [];
     sorted_by_theta_ := false |}.

Definition ScanMessage_of_rt (input_scan_rt : list radius_theta)
    : ScanMessage :=
  {| tp_ := 0%Z; scan_xy_ := []; scan_rt_ := input_scan_rt;
     sorted_by_theta_ := false |}.

Definition ScanMessage_of_xy_tp (input_scan_xy : list x_y)
    (input_tp : time_point) : ScanMessage :=
  {| tp_ := input_tp; scan_xy_ := input_scan_xy; scan_rt_ := [];
     sorted_by_theta_ := false |}.

Definition ScanMessage_of_rt_tp (input_scan_rt : list radius_theta)
    (input_tp : time_point) : ScanMessage :=
  {| tp_ := input_tp; scan_xy_ := []; scan_rt_ := input_scan_rt;
     sorted_by_theta_ := false |}.

(** *** Conversions and sorting *)

Section Methods.
Context `{Libm} `{StdSort}.

Definition XYtoRT (xy : x_y) : radius_theta :=
  {| radius := hypotf (x xy) (y xy); theta := atan2f (y xy) (x xy) |}.

Definition RTtoXY (rt : radius_theta) : x_y :=
  {| x := fmul (radius rt) (cosf (theta rt));
     y := fmul (radius rt) (sinf (theta rt)) |}.

(** [output_scan_rt->clear()], then one [push_back] per input sample. *)
Definition scanXYtoRT (input_scan_xy : list x_y) : list radius_theta :=
  if empty input_scan_xy then []
  else foldl (fun out xy => push_back out (XYtoRT xy)) [] input_scan_xy.

Definition scanRTtoXY (input_scan_rt : list radius_theta) : list x_y :=
  if empty input_scan_rt then []
  else foldl (fun out rt => push_back out (RTtoXY rt)) [] input_scan_rt.

(** The lambda handed to [std::sort]. *)
Definition theta_less (first second : radius_theta) : bool :=
  flt (theta first) (theta second).

Definition thetaAscendingSortScanRT (scan_rt : list radius_theta)
    : list radius_theta :=
  std_sort theta_less scan_rt.

(** *** Getters: each returns its value and the object it leaves *)

Definition getScanXY (m : ScanMessage) : list x_y * ScanMessage :=
  let m1 :=
    if empty (scan_xy_ m) && negb (empty (scan_rt_ m))
    then with_scan_xy m (scanRTtoXY (scan_rt_ m))
    else m in
  (scan_xy_ m1, m1).

(** The object after the conversion step of [getScanRT]. *)
Definition getScanRT_convert (m : ScanMessage) : ScanMessage :=
  if empty (scan_rt_ m) && negb (empty (scan_xy_ m))
  then with_sorted_by_theta (with_scan_rt m (scanXYtoRT (scan_xy_ m))) false
  else m.

(** The condition of the second [if] of [getScanRT]: whether this call
    sorts. *)
Definition getScanRT_sorts (need_sort : bool) (m : ScanMessage) : bool :=
  need_sort && negb (sorted_by_theta_ m).

(** The object after the sorting step of [getScanRT]. *)
Definition getScanRT_sort (need_sort : bool) (m : ScanMessage)
    : ScanMessage :=
  if getScanRT_sorts need_sort m
  then with_sorted_by_theta
         (with_scan_rt m (thetaAscendingSortScanRT (scan_rt_ m))) true
  else m.

Definition getScanRT (need_sort : bool) (m : ScanMessage)
    : list radius_theta * ScanMessage :=
  let m1 := getScanRT_convert m in
  let m2 := getScanRT_sort need_sort m1 in
  let m3 :=
    with_scan_rt m2 (compute_smallest_r_within_delta_theta (scan_rt_ m2)) in
  (scan_rt_ m3, m3).

End Methods.

Definition getTimePoint (m : ScanMessage) : time_point := tp_ m.

(** *** Setters *)

Definition setScanXY (input_scan_xy : list x_y) (m : ScanMessage)
    : ScanMessage :=
  let m1 := with_scan_xy m input_scan_xy in
  if negb (empty (scan_rt_ m1)) then with_scan_rt m1 [] else m1.

Definition setScanRT (input_scan_rt : list radius_theta) (is_sorted : bool)
    (m : ScanMessage) : ScanMessage :=
  let m1 := with_scan_rt m input_scan_rt in
  let m2 := if negb (empty (scan_xy_ m1)) then with_scan_xy m1 [] else m1 in
  with_sorted_by_theta m2 is_sorted.

Definition setTimePoint (input_tp : time_point) (m : ScanMessage)
    : ScanMessage :=
  with_tp m input_tp.

Definition scan_size (m : ScanMessage) : nat :=
  if empty (scan_xy_ m) then length (scan_rt_ m) else length (scan_xy_ m).

(** [reserve] changes capacities only. *)
Definition scan_reserve (size : nat) (m : ScanMessage) : ScanMessage := m.

Definition scan_clear (m : ScanMessage) : ScanMessage :=
  with_sorted_by_theta (with_scan_rt (with_scan_xy m []) []) false.

Definition scan_xy_push_back (xy : x_y) (m : ScanMessage) : ScanMessage :=
  let m1 := with_scan_xy m (push_back (scan_xy_ m) xy) in
  let m2 := if negb (empty (scan_rt_ m1)) then with_scan_rt m1 [] else m1 in
  with_sorted_by_theta m2 false.

Definition scan_rt_push_back (rt : radius_theta) (in_order : bool)
    (m : ScanMessage) : ScanMessage :=
  let m1 := with_scan_rt m (push_back (scan_rt_ m) rt) in
  let m2 := if negb (empty (scan_xy_ m1)) then with_scan_xy m1 [] else m1 in
  with_sorted_by_theta m2 in_order.

End Navigation.

Import Navigation.

(** * What the specification states *)

(** ** The smoothing transform, as the specification words it *)

Module Smoothing.

(** A neighbour [c] is inside the bearing window of a sample with bearing
    [theta_i] when [|theta c - theta_i| <= delta_theta]. *)
Definition within_delta_theta (theta_i : float) (c : radius_theta) : bool :=
  fle (fabs (fsub (theta c) theta_i)) delta_theta.

(** The longest initial run of [l] whose members all satisfy [P]. *)
Fixpoint contiguous_run {A : Type} (P : A -> bool) (l : list A) : list A :=
  match l with
  | [] => []
  | a :: l' => if P a then a :: contiguous_run P l' else []
  end.

(** The samples met from index [i] through descending indices
    ([i], [i-1], ..., [0]) and through ascending indices
    ([i], [i+1], ...), in a frozen sequence [s]. *)
Definition leftward (s : list radius_theta) (i : nat) : list radius_theta :=
  reverse (take (S i) s).

Definition rightward (s : list radius_theta) (i : nat) : list radius_theta :=
  drop i s.

(** The contiguous run of samples within the window around sample [i]. *)
Definition window (s : list radius_theta) (i : nat) (theta_i : float)
    : list radius_theta :=
  contiguous_run (within_delta_theta theta_i) (leftward s i)
  ++ contiguous_run (within_delta_theta theta_i) (rightward s i).

(** The running minimum of the radii of [l], started at [r]. *)
Definition running_min (r : float) (l : list radius_theta) : float :=
  foldl fmin r (radius <$> l).

(** Sample [i] after smoothing: its bearing, and the minimum radius over
    its window. *)
Definition smoothed (s : list radius_theta) (i : nat) (p : radius_theta)
    : radius_theta :=
  {| radius := running_min (radius p) (window s i (theta p));
     theta := theta p |}.

Definition smoothing_transform (s : list radius_theta) : list radius_theta :=
  imap (smoothed s) s.

(** Ascending order of the bearings. *)
Definition theta_ascending (s : list radius_theta) : Prop :=
  StronglySorted (fun a b => fle (theta a) (theta b) = true) s.

(** Samples whose bearing is a number, as opposed to NaN. *)
Definition theta_is_number (p : radius_theta) : Prop :=
  is_nan (theta p) = false.

Definition theta_is_finite (p : radius_theta) : Prop :=
  is_finite (theta p) = true.

Definition radius_is_number (p : radius_theta) : Prop :=
  is_nan (radius p) = false.

End Smoothing.

Import Smoothing.

(** ** Statements about single objects *)

Module Statements.

(** Exactly one of the two backing sequences is non-empty, or both are
    empty. *)
Definition one_or_none_populated (m : ScanMessage) : Prop :=
  (scan_xy_ m <> [] /\ scan_rt_ m = [])
  \/ (scan_xy_ m = [] /\ scan_rt_ m <> [])
  \/ (scan_xy_ m = [] /\ scan_rt_ m = []).

(** The flag tells the truth: when it is set, the polar sequence is in
    ascending order of [theta]. *)
Definition flag_is_truthful (m : ScanMessage) : Prop :=
  sorted_by_theta_ m = true -> theta_ascending (scan_rt_ m).

(** [getScanXY] on [m], with any <math.h>: the result is the polar
    sequence mapped through [RTtoXY] index by index, it is cached, and the
    polar sequence stays. *)
Definition derives_cartesian_from_polar (m : ScanMessage) : Prop :=
  forall L : Libm,
  let r := @getScanXY L m in
  r.1 = (@RTtoXY L) <$> scan_rt_ m
  /\ (forall i, r.1 !! i = (@RTtoXY L) <$> scan_rt_ m !! i)
  /\ (forall rt, @RTtoXY L rt =
        {| x := fmul (radius rt) (cosf (theta rt));
           y := fmul (radius rt) (sinf (theta rt)) |})
  /\ scan_xy_ r.2 = r.1
  /\ scan_rt_ r.2 = scan_rt_ m
  /\ scan_xy_ r.2 <> [] /\ scan_rt_ r.2 <> [].

(** Both getters return an empty sequence on [m] and leave both backing
    sequences empty. *)
Definition getters_return_empty `{Libm} `{StdSort} (m : ScanMessage) : Prop :=
  (getScanXY m).1 = []
  /\ scan_xy_ (getScanXY m).2 = [] /\ scan_rt_ (getScanXY m).2 = []
  /\ forall need_sort,
       (getScanRT need_sort m).1 = []
       /\ scan_xy_ (getScanRT need_sort m).2 = []
       /\ scan_rt_ (getScanRT need_sort m).2 = [].

(** The first of two calls [getScanRT(true)] on [m] returns a sequence in
    ascending order of [theta], with any <math.h> and any [std::sort],
    provided the bearings handed to the sort are numbers. *)
Definition first_call_returns_ascending (m : ScanMessage) : Prop :=
  forall (L : Libm) (S : StdSort),
  Forall theta_is_number (scan_rt_ (getScanRT_convert m)) ->
  theta_ascending (getScanRT true m).1.

(** After a call [getScanRT(true)] on [m] the flag is set, and a second
    call finds nothing to convert and does not sort. *)
Definition second_call_does_not_sort (m : ScanMessage) : Prop :=
  forall (L : Libm) (S : StdSort),
  let first := getScanRT true m in
  sorted_by_theta_ first.2 = true
  /\ getScanRT_convert first.2 = first.2
  /\ getScanRT_sorts true (getScanRT_convert first.2) = false.

(** The first call [getScanRT(true)] on [m] returns a sequence that is not
    in ascending order of [theta], whatever <math.h> and [std::sort]
    are. *)
Definition first_call_returns_unsorted (m : ScanMessage) : Prop :=
  forall (L : Libm) (S : StdSort), ~ theta_ascending (getScanRT true m).1.


(** The same, with the premise on the bearings discharged. *)
Definition returns_ascending (m : ScanMessage) : Prop :=
  forall (L : Libm) (S : StdSort), theta_ascending (getScanRT true m).1.

End Statements.

Import Statements.

(** ** Sample values *)

Module Samples.

(** The [float]s 1 and 5. *)
Definition f_1 : float := Eval vm_compute in of_Z_exp 1 0.
Definition f_5 : float := Eval vm_compute in of_Z_exp 5 0.

(** The bearings 0, [delta_theta / 2] and [2 * delta_theta]. *)
Definition theta_0 : float := S754_zero false.
Definition half_delta_theta : float :=
  Eval vm_compute in fmul (of_Z_exp 1 (-1)) delta_theta.
Definition twice_delta_theta : float :=
  Eval vm_compute in fmul (of_Z_exp 2 0) delta_theta.

(** The three samples of the window-boundary test and their smoothing. *)
Definition boundary_scan : list radius_theta :=
  [ mk_rt f_5 theta_0; mk_rt f_1 half_delta_theta;
    mk_rt f_5 twice_delta_theta ].

Definition boundary_scan_smoothed : list radius_theta :=
  [ mk_rt f_1 theta_0; mk_rt f_1 half_delta_theta;
    mk_rt f_5 twice_delta_theta ].

(** Three samples at bearings 0, 2^-9 and 2^-8 (0.00195 and 0.0039 rad):
    neighbours are within [delta_theta] (0.00307 rad) of each other, the
    two ends are not. *)
Definition chain_scan : list radius_theta :=
  [ mk_rt f_5 theta_0; mk_rt f_5 (of_Z_exp 1 (-9));
    mk_rt f_1 (of_Z_exp 1 (-8)) ].

(** Two samples in descending order of [theta] (1 rad, then 0 rad). *)
Definition descending_scan : list radius_theta :=
  [ mk_rt f_1 f_1; mk_rt f_1 theta_0 ].

End Samples.

Import Samples.

(** ** Further statements about the class *)

Module Further.

(** A producer appending samples one by one. *)
Definition append_all_xy (l : list x_y) (m : ScanMessage) : ScanMessage :=
  foldl (fun m xy => scan_xy_push_back xy m) m l.

Definition append_all_rt (l : list (radius_theta * bool)) (m : ScanMessage)
    : ScanMessage :=
  foldl (fun m a => scan_rt_push_back a.1 a.2 m) m l.

(** When both sequences are populated they have the same length. *)
Definition sizes_agree (m : ScanMessage) : Prop :=
  scan_xy_ m = [] \/ scan_rt_ m = []
  \/ length (scan_xy_ m) = length (scan_rt_ m).

(** Both getters return [scan_size] samples and leave an object whose
    sizes agree and whose [scan_size] is the same. *)
Definition getters_keep_size (m : ScanMessage) : Prop :=
  forall (L : Libm) (S : StdSort),
  length (getScanXY m).1 = scan_size m
  /\ sizes_agree (getScanXY m).2
  /\ scan_size (getScanXY m).2 = scan_size m
  /\ forall need_sort,
       length (getScanRT need_sort m).1 = scan_size m
       /\ sizes_agree (getScanRT need_sort m).2
       /\ scan_size (getScanRT need_sort m).2 = scan_size m.

(** Every two neighbours in the sequence are beyond [delta_theta] of each
    other, as both loop tests see it. *)
Definition neighbours_beyond (s : list radius_theta) : Prop :=
  forall i p q, s !! i = Some p -> s !! (S i) = Some q ->
  beyond_delta_theta q p = true /\ beyond_delta_theta p q = true.

(** The getters leave the flag truthful on [m]; for [getScanRT] the
    bearings handed to the sort are taken to be numbers. *)
Definition getters_keep_flag_truthful (m : ScanMessage) : Prop :=
  forall (L : Libm) (S : StdSort),
  flag_is_truthful (getScanXY m).2
  /\ forall need_sort,
       Forall theta_is_number (scan_rt_ (getScanRT_convert m)) ->
       flag_is_truthful (getScanRT need_sort m).2.

(** The flag is truthful after both getters, with the premise on the
    bearings discharged. *)
Definition flag_truthful_after_getters (m : ScanMessage) : Prop :=
  forall (L : Libm) (S : StdSort),
  flag_is_truthful (getScanXY m).2
  /\ forall need_sort, flag_is_truthful (getScanRT need_sort m).2.

(** Way points whose time stamp is a number. *)
Definition timestamp_is_number (w : WayPoint) : Prop :=
  is_nan (timestamp_sec w) = false.

(** What every call of [getScanRT] on [m] does, with any <math.h> and any
    [std::sort]: it returns, and stores, the stored polar sequence passed
    through [compute_smallest_r_within_delta_theta]; a second call with no
    write in between converts nothing and passes the result of the first
    through it again.  When the bearings are finite, what is returned is
    the window minimum [smoothing_transform] of the stored sequence, and
    on the second call the window minimum of that window minimum. *)
Definition getScanRT_smooths_every_call (m : ScanMessage) : Prop :=
  forall (L : Libm) (S : StdSort) (need_sort : bool),
  let stored := scan_rt_ (getScanRT_sort need_sort (getScanRT_convert m)) in
  let first := getScanRT need_sort m in
  first.1 = compute_smallest_r_within_delta_theta stored
  /\ scan_rt_ first.2 = first.1
  /\ (forall need_sort',
        (getScanRT need_sort' first.2).1 =
          compute_smallest_r_within_delta_theta
            (scan_rt_ (getScanRT_sort need_sort' first.2)))
  /\ (getScanRT false first.2).1 =
       compute_smallest_r_within_delta_theta first.1
  /\ (getScanRT need_sort first.2).1 =
       compute_smallest_r_within_delta_theta first.1
  /\ (Forall theta_is_finite (scan_rt_ (getScanRT_convert m)) ->
        first.1 = smoothing_transform stored
        /\ (forall need_sort',
              (getScanRT need_sort' first.2).1 =
                smoothing_transform
                  (scan_rt_ (getScanRT_sort need_sort' first.2)))
        /\ (getScanRT false first.2).1 =
             smoothing_transform (smoothing_transform stored)
        /\ (getScanRT need_sort first.2).1 =
             smoothing_transform (smoothing_transform stored)).

(** On the object holding the three samples of [chain_scan] (radii 5, 5,
    1), for either value of [need_sort], the first call returns the radii
    5, 1, 1 and the second, with no write in between, the radii
    1, 1, 1. *)
Definition getScanRT_smooths_the_chain_twice : Prop :=
  forall (L : Libm) (S : StdSort) (need_sort : bool),
  let m := setScanRT chain_scan true (ScanMessage_of_tp 0%Z) in
  radius <$> (getScanRT need_sort m).1 = [f_5; f_1; f_1]
  /\ radius <$> (getScanRT need_sort (getScanRT need_sort m).2).1
     = [f_1; f_1; f_1].

(** Two calls [getScanRT(need_sort)] on [m] return the window minimum of
    the stored sequence and the window minimum of that. *)
Definition getScanRT_returns_window_minimum (m : ScanMessage) : Prop :=
  forall (L : Libm) (S : StdSort) (need_sort : bool),
  let stored := scan_rt_ (getScanRT_sort need_sort (getScanRT_convert m)) in
  (getScanRT need_sort m).1 = smoothing_transform stored
  /\ (getScanRT need_sort (getScanRT need_sort m).2).1
     = smoothing_transform (smoothing_transform stored).

End Further.

Import Further.

(** * Definitions used by the proofs *)

(** ** An implementation of the [std::sort] contract *)

Module InsertionSort.

Fixpoint insert {A : Type} (comp : A -> A -> bool) (a : A) (l : list A)
    : list A :=
  match l with
  | [] => [a]
  | b :: l' => if comp a b then a :: l else b :: insert comp a l'
  end.

Fixpoint sort {A : Type} (comp : A -> A -> bool) (l : list A) : list A :=
  match l with
  | [] => []
  | a :: l' => insert comp a (sort comp l')
  end.

End InsertionSort.

(** ** The order of binary32 values *)

Module FloatOrder.

Local Open Scope Z_scope.

(** A key whose lexicographic order is the order [SFcompare] computes on
    the values that are not NaN. *)
Definition key (a : float) : Z * Z * Z :=
  match a with
  | S754_infinity true => (-2, 0, 0)
  | S754_finite true m e => (-1, - e, Z.neg m)
  | S754_zero _ => (0, 0, 0)
  | S754_nan => (0, 0, 0)
  | S754_finite false m e => (1, e, Z.pos m)
  | S754_infinity false => (2, 0, 0)
  end.

Definition lex_compare (k1 k2 : Z * Z * Z) : comparison :=
  let '(a1, b1, c1) := k1 in
  let '(a2, b2, c2) := k2 in
  match a1 ?= a2 with
  | Eq => match b1 ?= b2 with Eq => c1 ?= c2 | r => r end
  | r => r
  end.

Definition lex_lt (k1 k2 : Z * Z * Z) : Prop :=
  let '(a1, b1, c1) := k1 in
  let '(a2, b2, c2) := k2 in
  a1 < a2 \/ (a1 = a2 /\ (b1 < b2 \/ (b1 = b2 /\ c1 < c2))).

Definition lex_le (k1 k2 : Z * Z * Z) : Prop :=
  let '(a1, b1, c1) := k1 in
  let '(a2, b2, c2) := k2 in
  a1 < a2 \/ (a1 = a2 /\ (b1 < b2 \/ (b1 = b2 /\ c1 <= c2))).

End FloatOrder.

Import FloatOrder.

(** ** The inner loops as scans of a list *)

Module Loops.

(** Both inner loops walk through entries of the copy until one lies beyond
    [delta_theta]; [scan] is that walk over the entries in the order they
    are visited. *)
Fixpoint scan (rt : radius_theta) (l : list radius_theta) : radius_theta :=
  match l with
  | [] => rt
  | c :: l' =>
      if beyond_delta_theta c rt then rt else scan (take_smaller rt c) l'
  end.

(** The loop test with the bearing of [rt] made explicit. *)
Definition near (theta_i : float) (c : radius_theta) : bool :=
  negb (fgt (fabs (fsub (theta c) theta_i)) delta_theta).

(** The entries the two loops of iteration [i] take into the minimum. *)
Definition visited (s : list radius_theta) (i : nat) (theta_i : float)
    : list radius_theta :=
  contiguous_run (near theta_i) (leftward s i)
  ++ contiguous_run (near theta_i) (rightward s i).

End Loops.

Import Loops.

(** ** A measure for repeated smoothing *)

Module Potential.




End Potential.

Import Potential.

(** * Proofs *)

(** ** The order of binary32 values is a total preorder on numbers *)

Module FloatOrderFacts.

Local Open Scope Z_scope.

Lemma SFcompare_key (a b : float) :
  is_nan a = false -> is_nan b = false ->
  SFcompare a b = Some (lex_compare (key a) (key b)).
Proof.
  destruct a as [[]|[]| |[] ma ea], b as [[]|[]| |[] mb eb];
    simpl; intros; try done.
  rewrite Z.compare_opp, (Z.compare_antisym ea eb).
  destruct (ea ?= eb); reflexivity.
Qed.

Lemma lex_compare_lt k1 k2 : lex_compare k1 k2 = Lt <-> lex_lt k1 k2.
Proof.
  destruct k1 as [[a1 b1] c1], k2 as [[a2 b2] c2]; simpl.
  destruct (Z.compare_spec a1 a2), (Z.compare_spec b1 b2),
    (Z.compare_spec c1 c2); split; intros; try done; try lia.
Qed.

Lemma lex_compare_le k1 k2 : lex_compare k1 k2 <> Gt <-> lex_le k1 k2.
Proof.
  destruct k1 as [[a1 b1] c1], k2 as [[a2 b2] c2]; simpl.
  destruct (Z.compare_spec a1 a2), (Z.compare_spec b1 b2),
    (Z.compare_spec c1 c2); split; intros; try done; try lia.
Qed.

Lemma SFcompare_nan_l (b : float) : SFcompare S754_nan b = None.
Proof. reflexivity. Qed.

Lemma SFcompare_nan_r (a : float) : SFcompare a S754_nan = None.
Proof. destruct a as [[]|[]| |[] ? ?]; reflexivity. Qed.

Lemma is_nan_true (a : float) : is_nan a = true -> a = S754_nan.
Proof. destruct a; simpl; congruence. Qed.

Lemma fle_spec (a b : float) :
  fle a b = true <->
  is_nan a = false /\ is_nan b = false /\ lex_le (key a) (key b).
Proof.
  unfold fle, SFleb.
  destruct (is_nan a) eqn:Ha.
  { apply is_nan_true in Ha as ->. rewrite SFcompare_nan_l.
    split; [discriminate | intros (? & _); discriminate]. }
  destruct (is_nan b) eqn:Hb.
  { apply is_nan_true in Hb as ->. rewrite SFcompare_nan_r.
    split; [discriminate | intros (_ & ? & _); discriminate]. }
  rewrite SFcompare_key by done. rewrite <- lex_compare_le.
  destruct (lex_compare (key a) (key b)); intuition congruence.
Qed.

Lemma flt_spec (a b : float) :
  flt a b = true <->
  is_nan a = false /\ is_nan b = false /\ lex_lt (key a) (key b).
Proof.
  unfold flt, SFltb.
  destruct (is_nan a) eqn:Ha.
  { apply is_nan_true in Ha as ->. rewrite SFcompare_nan_l.
    split; [discriminate | intros (? & _); discriminate]. }
  destruct (is_nan b) eqn:Hb.
  { apply is_nan_true in Hb as ->. rewrite SFcompare_nan_r.
    split; [discriminate | intros (_ & ? & _); discriminate]. }
  rewrite SFcompare_key by done. rewrite <- lex_compare_lt.
  destruct (lex_compare (key a) (key b)); intuition congruence.
Qed.

Lemma lex_le_refl k : lex_le k k.
Proof. destruct k as [[? ?] ?]. unfold lex_le. lia. Qed.

Lemma lex_le_trans k1 k2 k3 : lex_le k1 k2 -> lex_le k2 k3 -> lex_le k1 k3.
Proof.
  destruct k1 as [[? ?] ?], k2 as [[? ?] ?], k3 as [[? ?] ?].
  unfold lex_le. lia.
Qed.

Lemma lex_lt_le k1 k2 : lex_lt k1 k2 -> lex_le k1 k2.
Proof. destruct k1 as [[? ?] ?], k2 as [[? ?] ?]. unfold lex_le, lex_lt. lia. Qed.

Lemma lex_lt_irrefl k : ~ lex_lt k k.
Proof. destruct k as [[? ?] ?]. unfold lex_lt. lia. Qed.

Lemma lex_lt_le_trans k1 k2 k3 : lex_lt k1 k2 -> lex_le k2 k3 -> lex_lt k1 k3.
Proof.
  destruct k1 as [[? ?] ?], k2 as [[? ?] ?], k3 as [[? ?] ?].
  unfold lex_le, lex_lt. lia.
Qed.

Lemma lex_le_lt_trans k1 k2 k3 : lex_le k1 k2 -> lex_lt k2 k3 -> lex_lt k1 k3.
Proof.
  destruct k1 as [[? ?] ?], k2 as [[? ?] ?], k3 as [[? ?] ?].
  unfold lex_le, lex_lt. lia.
Qed.

Lemma lex_total k1 k2 : lex_le k1 k2 \/ lex_lt k2 k1.
Proof. destruct k1 as [[? ?] ?], k2 as [[? ?] ?]. unfold lex_le, lex_lt. lia. Qed.

Lemma lex_le_not_lt k1 k2 : lex_le k1 k2 -> ~ lex_lt k2 k1.
Proof. destruct k1 as [[? ?] ?], k2 as [[? ?] ?]. unfold lex_le, lex_lt. lia. Qed.

Lemma fle_refl (a : float) : is_nan a = false -> fle a a = true.
Proof. intros. apply fle_spec. auto using lex_le_refl. Qed.

Lemma fle_trans (a b c : float) :
  fle a b = true -> fle b c = true -> fle a c = true.
Proof.
  rewrite !fle_spec. intros (? & ? & ?) (? & ? & ?).
  eauto using lex_le_trans.
Qed.

Lemma flt_fle (a b : float) : flt a b = true -> fle a b = true.
Proof.
  rewrite flt_spec, fle_spec. intros (? & ? & ?). auto using lex_lt_le.
Qed.

Lemma flt_irrefl (a : float) : flt a a = false.
Proof.
  apply not_true_is_false. rewrite flt_spec.
  intros (_ & _ & ?). by eapply lex_lt_irrefl.
Qed.

Lemma flt_trans (a b c : float) :
  flt a b = true -> flt b c = true -> flt a c = true.
Proof.
  rewrite !flt_spec. intros (? & ? & ?) (? & ? & ?).
  eauto using lex_lt_le_trans, lex_lt_le.
Qed.

Lemma flt_fle_trans (a b c : float) :
  flt a b = true -> fle b c = true -> flt a c = true.
Proof.
  rewrite !flt_spec, fle_spec. intros (? & ? & ?) (? & ? & ?).
  eauto using lex_lt_le_trans.
Qed.

Lemma fle_flt_trans (a b c : float) :
  fle a b = true -> flt b c = true -> flt a c = true.
Proof.
  rewrite !flt_spec, fle_spec. intros (? & ? & ?) (? & ? & ?).
  eauto using lex_le_lt_trans.
Qed.

Lemma fle_total (a b : float) :
  is_nan a = false -> is_nan b = false ->
  fle a b = true \/ flt b a = true.
Proof.
  intros. rewrite fle_spec, flt_spec.
  destruct (lex_total (key a) (key b)); auto.
Qed.

Lemma fle_not_flt (a b : float) : fle a b = true -> flt b a = false.
Proof.
  intros Hle. apply not_true_is_false. revert Hle.
  rewrite fle_spec, flt_spec. intros (_ & _ & ?) (_ & _ & ?).
  by eapply lex_le_not_lt.
Qed.

Lemma not_flt_fle (a b : float) :
  is_nan a = false -> is_nan b = false -> flt b a = false -> fle a b = true.
Proof.
  intros Ha Hb Hlt. destruct (fle_total a b Ha Hb); congruence.
Qed.

Lemma fle_is_number (a b : float) :
  fle a b = true -> is_nan a = false /\ is_nan b = false.
Proof. rewrite fle_spec. tauto. Qed.

Lemma flt_is_number (a b : float) :
  flt a b = true -> is_nan a = false /\ is_nan b = false.
Proof. rewrite flt_spec. tauto. Qed.

(** *** [fmin] *)

Lemma fmin_cases (a b : float) :
  is_nan a = false ->
  (fmin a b = a /\ flt b a = false) \/ (fmin a b = b /\ flt b a = true).
Proof.
  intros Ha. unfold fmin, fgt. change (SFltb b a) with (flt b a).
  destruct (fle a b) eqn:Hle.
  { left. split; [reflexivity|]. by apply fle_not_flt. }
  destruct (flt b a) eqn:Hlt.
  { right. split; reflexivity. }
  left. split; [|reflexivity].
  destruct (is_nan b) eqn:Hb; [reflexivity|].
  destruct (fle_total a b Ha Hb); congruence.
Qed.

Lemma fmin_is_number (a b : float) :
  is_nan a = false -> is_nan (fmin a b) = false.
Proof.
  intros Ha. destruct (fmin_cases a b Ha) as [[-> _]|[-> Hlt]]; [done|].
  by apply flt_is_number in Hlt as [? _].
Qed.

Lemma fmin_le_l (a b : float) :
  is_nan a = false -> fle (fmin a b) a = true.
Proof.
  intros Ha. destruct (fmin_cases a b Ha) as [[-> _]|[-> Hlt]].
  - by apply fle_refl.
  - by apply flt_fle.
Qed.

Lemma fmin_le_r (a b : float) :
  is_nan a = false -> is_nan b = false -> fle (fmin a b) b = true.
Proof.
  intros Ha Hb. destruct (fmin_cases a b Ha) as [[-> Hlt]|[-> _]].
  - by apply not_flt_fle.
  - by apply fle_refl.
Qed.

End FloatOrderFacts.

Import FloatOrderFacts.

(** ** Rounding never produces NaN *)

Module Rounding.

Local Open Scope Z_scope.

Lemma shr_1_nonneg mrs : 0 <= shr_m mrs -> 0 <= shr_m (shr_1 mrs).
Proof.
  destruct mrs as [m r s]. destruct m as [|[p|p|]|[p|p|]]; simpl; lia.
Qed.

Lemma iter_pos_shr_1_nonneg n :
  forall mrs, 0 <= shr_m mrs -> 0 <= shr_m (SpecFloat.iter_pos shr_1 n mrs).
Proof.
  induction n as [n IH|n IH|]; intros mrs Hm; simpl;
    auto using shr_1_nonneg.
Qed.

Lemma shr_record_of_loc_m m l : shr_m (shr_record_of_loc m l) = m.
Proof. destruct l as [|[]]; reflexivity. Qed.

Lemma shr_fexp_nonneg p em m e l :
  0 <= m -> 0 <= shr_m (fst (shr_fexp p em m e l)).
Proof.
  intros Hm. unfold shr_fexp, shr.
  destruct (fexp p em (Zdigits2 m + e) - e); simpl;
    try apply iter_pos_shr_1_nonneg; rewrite shr_record_of_loc_m; done.
Qed.

Lemma round_nearest_even_nonneg m l : 0 <= m -> 0 <= round_nearest_even m l.
Proof.
  intros Hm. destruct l as [|[]]; simpl; try destruct (Z.even m); lia.
Qed.

Lemma binary_round_aux_is_number p em sx mx ex lx :
  0 <= mx -> is_nan (binary_round_aux p em sx mx ex lx) = false.
Proof.
  intros Hm. unfold binary_round_aux.
  pose proof (shr_fexp_nonneg p em mx ex lx Hm) as H1.
  destruct (shr_fexp p em mx ex lx) as [mrs' e']. simpl in H1.
  pose proof (shr_fexp_nonneg p em _ e' loc_Exact
    (round_nearest_even_nonneg _ (loc_of_shr_record mrs') H1)) as H2.
  destruct (shr_fexp p em _ e' loc_Exact) as [mrs'' e'']. simpl in H2.
  destruct (shr_m mrs''); [reflexivity| |lia].
  destruct (e'' <=? em - p); reflexivity.
Qed.

Lemma binary_round_is_number p em sx mx ex :
  is_nan (binary_round p em sx mx ex) = false.
Proof.
  unfold binary_round. destruct (shl_align _ _ _) as [mz ez].
  apply binary_round_aux_is_number. lia.
Qed.

Lemma binary_normalize_is_number p em m e sz :
  is_nan (binary_normalize p em m e sz) = false.
Proof.
  destruct m; simpl; [reflexivity| |]; apply binary_round_is_number.
Qed.

(** The difference of two finite [float]s is a number (it may overflow to
    an infinity). *)
Lemma fsub_is_number (a b : float) :
  is_finite a = true -> is_finite b = true -> is_nan (fsub a b) = false.
Proof.
  destruct a as [[]|[]| |[] ma ea], b as [[]|[]| |[] mb eb];
    intros Ha Hb; try discriminate Ha; try discriminate Hb;
    try reflexivity; unfold fsub, SFsub; apply binary_normalize_is_number.
Qed.

Lemma fabs_is_nan (a : float) : is_nan (fabs a) = is_nan a.
Proof. destruct a; reflexivity. Qed.

Lemma is_finite_is_number (a : float) : is_finite a = true -> is_nan a = false.
Proof. destruct a; simpl; congruence. Qed.

(** A finite bearing is within the window of itself. *)
Lemma fsub_self_zero (a : float) :
  is_finite a = true -> fabs (fsub a a) = S754_zero false.
Proof.
  destruct a as [[]| | |[] m e]; simpl; intros; try done.
  all: unfold fsub, SFsub, shl_align; rewrite Z.min_id, Z.sub_diag; simpl.
  all: rewrite ?Z.pos_sub_diag; reflexivity.
Qed.

End Rounding.

Import Rounding.

(** ** The loops of [compute_smallest_r_within_delta_theta] *)

Module LoopFacts.

Lemma while_down_unfold (copy : list radius_theta) rt j :
  while_down copy rt j =
  match copy !! j with
  | None => rt
  | Some c =>
      if beyond_delta_theta c rt then rt
      else match j with
           | O => take_smaller rt c
           | S j' => while_down copy (take_smaller rt c) j'
           end
  end.
Proof. destruct j; reflexivity. Qed.

Lemma while_down_scan (copy : list radius_theta) j :
  forall rt, j < length copy ->
  while_down copy rt j = scan rt (reverse (take (S j) copy)).
Proof.
  induction j as [|j IH]; intros rt Hj;
    destruct (lookup_lt_is_Some_2 copy _ Hj) as [c Hc];
    rewrite while_down_unfold, Hc, (take_S_r _ _ _ Hc), reverse_snoc; simpl.
  - reflexivity.
  - destruct (beyond_delta_theta c rt); [reflexivity|].
    apply IH. lia.
Qed.

Lemma while_up_scan (copy : list radius_theta) fuel :
  forall j rt, length copy - j <= fuel ->
  while_up fuel copy rt j = scan rt (drop j copy).
Proof.
  induction fuel as [|fuel IH]; intros j rt Hfuel; simpl.
  - rewrite drop_ge by lia. reflexivity.
  - destruct (copy !! j) as [c|] eqn:Hc.
    + rewrite (drop_S _ _ _ Hc). simpl.
      destruct (beyond_delta_theta c rt); [reflexivity|].
      apply IH. lia.
    + apply lookup_ge_None_1 in Hc. rewrite drop_ge by lia. reflexivity.
Qed.

(** More fuel than [size - j] changes nothing: the second loop has left
    by then. *)
Lemma while_up_fuel (copy : list radius_theta) fuel j rt :
  length copy - j <= fuel ->
  while_up fuel copy rt j = while_up (length copy - j) copy rt j.
Proof.
  intros Hfuel. rewrite !while_up_scan by lia. reflexivity.
Qed.

Lemma smallest_at_scan (copy : list radius_theta) rt i :
  i < length copy ->
  smallest_at copy rt i = scan (scan rt (leftward copy i)) (rightward copy i).
Proof.
  intros Hi. unfold smallest_at, leftward, rightward.
  rewrite while_up_scan by lia. rewrite while_down_scan by lia. reflexivity.
Qed.

Lemma scan_theta l : forall rt, theta (scan rt l) = theta rt.
Proof.
  induction l as [|c l IH]; intros rt; simpl; [reflexivity|].
  destruct (beyond_delta_theta c rt); [reflexivity|].
  rewrite IH. reflexivity.
Qed.

Lemma scan_radius l :
  forall rt,
  radius (scan rt l) =
  foldl fmin (radius rt) (radius <$> contiguous_run (near (theta rt)) l).
Proof.
  induction l as [|c l IH]; intros rt; simpl; [reflexivity|].
  unfold near at 1. fold (beyond_delta_theta c rt).
  destruct (beyond_delta_theta c rt); simpl; [reflexivity|].
  rewrite IH. reflexivity.
Qed.

(** One iteration of the outer loop: the bearing stays, the radius is the
    running [fmin] over the two runs of the copy. *)
Lemma smallest_at_theta (copy : list radius_theta) rt i :
  theta (smallest_at copy rt i) = theta rt.
Proof.
  destruct (decide (i < length copy)) as [Hi|Hi].
  - rewrite smallest_at_scan by done. rewrite !scan_theta. reflexivity.
  - unfold smallest_at. replace (length copy - i) with 0 by lia. simpl.
    rewrite while_down_unfold, lookup_ge_None_2 by lia. reflexivity.
Qed.

Lemma smallest_at_radius (copy : list radius_theta) rt i :
  i < length copy ->
  radius (smallest_at copy rt i) =
  running_min (radius rt) (visited copy i (theta rt)).
Proof.
  intros Hi. rewrite smallest_at_scan by done.
  rewrite scan_radius, scan_theta, scan_radius.
  unfold running_min, visited. rewrite fmap_app, foldl_app.
  reflexivity.
Qed.

(** *** The outer loop *)

Lemma for_body_length copy (live : list radius_theta) i :
  length (for_body copy live i) = length live.
Proof.
  unfold for_body. destruct (live !! i); [apply length_insert|reflexivity].
Qed.

Lemma for_body_lookup copy (live : list radius_theta) i k :
  for_body copy live i !! k =
  if decide (k = i) then (fun rt => smallest_at copy rt i) <$> live !! i
  else live !! k.
Proof.
  unfold for_body. destruct (live !! i) as [rt|] eqn:Hrt.
  - case_decide as Hk.
    + subst k. apply list_lookup_insert_eq. by eapply lookup_lt_Some.
    + by apply list_lookup_insert_ne.
  - case_decide as Hk; [by subst k|reflexivity].
Qed.

(** After the iterations for the indices of [order], taken in that order
    and each index once, each of those cells holds what its own iteration
    computed from the copy and from the cell's earlier content; no
    iteration reads a cell another one wrote. *)
Lemma foldl_for_body_lookup copy (order : list nat) :
  NoDup order ->
  forall (live : list radius_theta) k,
  foldl (for_body copy) live order !! k =
  if decide (k ∈ order)
  then (fun rt => smallest_at copy rt k) <$> live !! k
  else live !! k.
Proof.
  induction order as [|i order IH]; intros Hnd live k; cbn [foldl].
  - rewrite decide_False by apply not_elem_of_nil. reflexivity.
  - apply NoDup_cons in Hnd as [Hi Hnd].
    rewrite IH, for_body_lookup by done.
    destruct (decide (k = i)) as [->|Hki].
    + rewrite decide_False by done.
      rewrite decide_True by apply list_elem_of_here. reflexivity.
    + destruct (decide (k ∈ order)) as [Hk|Hk].
      * rewrite decide_True by (by apply list_elem_of_further). reflexivity.
      * rewrite decide_False; [reflexivity|].
        intros [?|?]%elem_of_cons; done.
Qed.

Lemma compute_smallest_lookup (s : list radius_theta) i :
  compute_smallest_r_within_delta_theta s !! i =
  (fun rt => smallest_at s rt i) <$> s !! i.
Proof.
  unfold compute_smallest_r_within_delta_theta.
  rewrite foldl_for_body_lookup by apply NoDup_seq.
  case_decide as Hi; [reflexivity|].
  rewrite elem_of_seq in Hi.
  rewrite lookup_ge_None_2 by lia. reflexivity.
Qed.

(** The outer loop may visit the indices in any order. *)
Lemma for_loop_any_order (s : list radius_theta) (order : list nat) :
  order ≡ₚ seq 0 (length s) ->
  foldl (for_body s) s order = compute_smallest_r_within_delta_theta s.
Proof.
  intros Hperm. apply list_eq. intros k.
  unfold compute_smallest_r_within_delta_theta.
  rewrite !foldl_for_body_lookup.
  - destruct (decide (k ∈ order)) as [Hk|Hk].
    + rewrite decide_True by (by rewrite <- Hperm). reflexivity.
    + rewrite decide_False by (by rewrite <- Hperm). reflexivity.
  - apply NoDup_seq.
  - rewrite Hperm. apply NoDup_seq.
Qed.

Lemma foldl_for_body_length copy (l : list nat) :
  forall live : list radius_theta,
  length (foldl (for_body copy) live l) = length live.
Proof.
  induction l as [|i l IH]; intros live; simpl; [reflexivity|].
  rewrite IH. apply for_body_length.
Qed.

Lemma compute_smallest_length (s : list radius_theta) :
  length (compute_smallest_r_within_delta_theta s) = length s.
Proof. apply foldl_for_body_length. Qed.

End LoopFacts.

Import LoopFacts.

(** ** The loops compute the window minimum *)

Module WindowMinimum.

Lemma radius_theta_eq (a b : radius_theta) :
  radius a = radius b -> theta a = theta b -> a = b.
Proof. destruct a, b; simpl; congruence. Qed.

Lemma delta_theta_is_number : is_nan delta_theta = false.
Proof. reflexivity. Qed.

(** On finite bearings, leaving the loop on [> delta_theta] and staying in
    the window on [<= delta_theta] are the same test. *)
Lemma near_within (theta_i : float) (c : radius_theta) :
  is_finite theta_i = true -> is_finite (theta c) = true ->
  near theta_i c = within_delta_theta theta_i c.
Proof.
  intros Hi Hc. unfold near, within_delta_theta, fgt.
  change (SFltb ?a ?b) with (flt a b).
  assert (is_nan (fabs (fsub (theta c) theta_i)) = false) as Hd.
  { rewrite fabs_is_nan. by apply fsub_is_number. }
  destruct (flt delta_theta _) eqn:Hlt; simpl.
  - symmetry. apply not_true_is_false. intros Hle.
    apply fle_not_flt in Hle. congruence.
  - symmetry. by apply not_flt_fle.
Qed.

Lemma contiguous_run_ext {A} (P Q : A -> bool) (l : list A) :
  (forall a, a ∈ l -> P a = Q a) ->
  contiguous_run P l = contiguous_run Q l.
Proof.
  induction l as [|a l IH]; intros HPQ; simpl; [reflexivity|].
  rewrite <- (HPQ a) by apply list_elem_of_here.
  destruct (P a); [|reflexivity]. f_equal. apply IH.
  intros b Hb. apply HPQ. by apply list_elem_of_further.
Qed.

Lemma contiguous_run_subseteq {A} (P : A -> bool) (l : list A) :
  contiguous_run P l ⊆ l.
Proof.
  induction l as [|a l IH]; simpl; [done|].
  destruct (P a); [|apply list_subseteq_nil].
  intros b [->|Hb]%elem_of_cons.
  - apply list_elem_of_here.
  - apply list_elem_of_further. by apply IH.
Qed.

Lemma leftward_subseteq (s : list radius_theta) i : leftward s i ⊆ s.
Proof.
  intros c Hc. unfold leftward in Hc. rewrite elem_of_reverse in Hc.
  exact (subseteq_take _ _ _ Hc).
Qed.

Lemma rightward_subseteq (s : list radius_theta) i : rightward s i ⊆ s.
Proof. apply subseteq_drop. Qed.

Lemma window_subseteq (s : list radius_theta) i theta_i :
  window s i theta_i ⊆ s.
Proof.
  intros c [Hc|Hc]%elem_of_app; apply contiguous_run_subseteq in Hc.
  - exact (leftward_subseteq _ _ _ Hc).
  - exact (rightward_subseteq _ _ _ Hc).
Qed.

Lemma visited_is_window (s : list radius_theta) i theta_i :
  Forall theta_is_finite s -> is_finite theta_i = true ->
  visited s i theta_i = window s i theta_i.
Proof.
  intros Hs Hi. rewrite Forall_forall in Hs. unfold visited, window. f_equal.
  - apply contiguous_run_ext. intros c Hc. apply near_within; [done|].
    apply Hs. exact (leftward_subseteq _ _ _ Hc).
  - apply contiguous_run_ext. intros c Hc. apply near_within; [done|].
    apply Hs. exact (rightward_subseteq _ _ _ Hc).
Qed.

Lemma smallest_at_smoothed (s : list radius_theta) i p :
  Forall theta_is_finite s -> s !! i = Some p ->
  smallest_at s p i = smoothed s i p.
Proof.
  intros Hs Hp. apply radius_theta_eq.
  - rewrite smallest_at_radius by (by eapply lookup_lt_Some).
    rewrite visited_is_window; [reflexivity|done|].
    rewrite Forall_forall in Hs. apply Hs. by eapply list_elem_of_lookup_2.
  - rewrite smallest_at_theta. reflexivity.
Qed.

Lemma compute_smallest_is_smoothing (s : list radius_theta) :
  Forall theta_is_finite s ->
  compute_smallest_r_within_delta_theta s = smoothing_transform s.
Proof.
  intros Hs. apply list_eq. intros i.
  rewrite compute_smallest_lookup. unfold smoothing_transform.
  rewrite list_lookup_imap.
  destruct (s !! i) as [p|] eqn:Hp; simpl; [|reflexivity].
  f_equal. by apply smallest_at_smoothed.
Qed.

(** *** [running_min] is a minimum *)


Lemma running_min_le_start l :
  forall r, is_nan r = false -> fle (running_min r l) r = true.
Proof.
  unfold running_min.
  induction l as [|c l IH]; intros r Hr; simpl.
  - by apply fle_refl.
  - eapply fle_trans; [apply IH; by apply fmin_is_number|].
    by apply fmin_le_l.
Qed.

Lemma running_min_lower_bound l :
  forall r c, is_nan r = false -> Forall radius_is_number l -> c ∈ l ->
  fle (running_min r l) (radius c) = true.
Proof.
  induction l as [|c0 l IH]; intros r c Hr Hl Hc.
  - by apply elem_of_nil in Hc.
  - apply Forall_cons in Hl as [Hc0 Hl].
    change (running_min r (c0 :: l))
      with (running_min (fmin r (radius c0)) l).
    apply elem_of_cons in Hc as [->|Hc].
    + eapply fle_trans; [apply running_min_le_start|].
      * by apply fmin_is_number.
      * by apply fmin_le_r.
    + apply IH; [by apply fmin_is_number|done|done].
Qed.

Lemma running_min_attained l :
  forall r, is_nan r = false ->
  running_min r l = r \/ exists c, c ∈ l /\ radius c = running_min r l.
Proof.
  induction l as [|c0 l IH]; intros r Hr; [by left|].
  change (running_min r (c0 :: l))
    with (running_min (fmin r (radius c0)) l).
  destruct (IH (fmin r (radius c0)) (fmin_is_number _ _ Hr)) as [Heq|(c & Hc & Heq)].
  - rewrite Heq. destruct (fmin_cases r (radius c0) Hr) as [[-> _]|[-> _]].
    + by left.
    + right. exists c0. split; [apply list_elem_of_here|reflexivity].
  - right. exists c. split; [by apply list_elem_of_further|done].
Qed.

(** A pass keeps the bearing at every index and does not raise the radius. *)
Lemma compute_smallest_radius_le (s : list radius_theta) i p :
  s !! i = Some p ->
  exists q,
    compute_smallest_r_within_delta_theta s !! i = Some q
    /\ theta q = theta p
    /\ fgt (radius q) (radius p) = false
    /\ (radius_is_number p -> fle (radius q) (radius p) = true).
Proof.
  intros Hp. exists (smallest_at s p i).
  split; [by rewrite compute_smallest_lookup, Hp|].
  split; [apply smallest_at_theta|].
  assert (radius_is_number p ->
          fle (radius (smallest_at s p i)) (radius p) = true) as Hle.
  { intros Hnum. rewrite smallest_at_radius by (by eapply lookup_lt_Some).
    by apply running_min_le_start. }
  split; [|exact Hle].
  unfold fgt. change (SFltb ?a ?b) with (flt a b).
  destruct (is_nan (radius p)) eqn:Hnan.
  - apply not_true_is_false. intros Hlt.
    apply flt_is_number in Hlt as [Hnum _]. congruence.
  - apply fle_not_flt. by apply Hle.
Qed.

(** Sample [i] lies in its own window. *)
Lemma window_self (s : list radius_theta) i p :
  s !! i = Some p -> is_finite (theta p) = true ->
  p ∈ window s i (theta p).
Proof.
  intros Hp Hfin. unfold window, leftward. apply elem_of_app. left.
  rewrite (take_S_r _ _ _ Hp), reverse_snoc. simpl.
  unfold within_delta_theta at 1. rewrite fsub_self_zero by done.
  change (fle (S754_zero false) delta_theta) with true. simpl.
  apply list_elem_of_here.
Qed.

End WindowMinimum.

Import WindowMinimum.

(** ** The [std::sort] contract is met by insertion sort *)

Module InsertionSortFacts.

Import InsertionSort.

Section Sorting.
Context {A : Type} (comp : A -> A -> bool) (U : list A).
Hypothesis Hswo : strict_weak_ordering_on comp U.

Lemma comp_asym a b : a ∈ U -> b ∈ U -> comp a b = true -> comp b a = false.
Proof.
  intros Ha Hb Hab. apply not_true_is_false. intros Hba.
  pose proof (swo_trans _ _ Hswo a b a Ha Hb Ha Hab Hba) as Haa.
  rewrite (swo_irrefl _ _ Hswo a Ha) in Haa. discriminate.
Qed.

Lemma insert_perm a (l : list A) : insert comp a l ≡ₚ a :: l.
Proof.
  induction l as [|b l IH]; simpl; [reflexivity|].
  destruct (comp a b); [reflexivity|].
  rewrite IH. apply Permutation_swap.
Qed.

Lemma insert_sorted a (l : list A) :
  a ∈ U -> l ⊆ U ->
  StronglySorted (fun u v => comp v u = false) l ->
  StronglySorted (fun u v => comp v u = false) (insert comp a l).
Proof.
  intros Ha. induction l as [|b l IH]; intros Hl Hs; simpl.
  - repeat constructor.
  - apply StronglySorted_inv in Hs as [Hs Hb].
    assert (b ∈ U) as HbU by (apply Hl, list_elem_of_here).
    assert (l ⊆ U) as HlU
      by (intros z Hz; apply Hl; by apply list_elem_of_further).
    destruct (comp a b) eqn:Hab.
    + constructor; [by constructor|].
      constructor; [by apply comp_asym|].
      rewrite Forall_forall in Hb |- *. intros z Hz.
      apply not_true_is_false. intros Hza.
      pose proof (swo_trans _ _ Hswo z a b (HlU z Hz) Ha HbU Hza Hab).
      specialize (Hb z Hz). congruence.
    + constructor; [by apply IH|].
      rewrite (insert_perm a l). by constructor.
Qed.

End Sorting.

Lemma sort_perm {A} (comp : A -> A -> bool) (l : list A) : sort comp l ≡ₚ l.
Proof.
  induction l as [|a l IH]; simpl; [reflexivity|].
  rewrite insert_perm. by f_equiv.
Qed.

Lemma sort_sorted_within {A} (comp : A -> A -> bool) (U l : list A) :
  strict_weak_ordering_on comp U -> l ⊆ U ->
  StronglySorted (fun u v => comp v u = false) (sort comp l).
Proof.
  intros Hswo. induction l as [|a l IH]; intros Hl; simpl.
  - constructor.
  - assert (l ⊆ U) as HlU
      by (intros z Hz; apply Hl; by apply list_elem_of_further).
    apply (insert_sorted comp U Hswo).
    + apply Hl, list_elem_of_here.
    + intros z Hz. apply HlU. by rewrite <- (sort_perm comp l).
    + by apply IH.
Qed.

Lemma sort_sorted {A} (comp : A -> A -> bool) (l : list A) :
  strict_weak_ordering_on comp l ->
  StronglySorted (fun u v => comp v u = false) (sort comp l).
Proof. intros Hswo. by apply (sort_sorted_within comp l l). Qed.

(** The contract [StdSort] asks of [std::sort] can be met. *)
Lemma StdSort_inhabited : inhabited StdSort.
Proof.
  constructor.
  exact {| std_sort := @sort; std_sort_perm := @sort_perm;
           std_sort_sorted := @sort_sorted |}.
Qed.

End InsertionSortFacts.

(** ** Facts about the conversions and the sort *)

Module ScanFacts.

Lemma empty_true {A} (v : list A) : empty v = true <-> v = [].
Proof. destruct v; simpl; split; congruence. Qed.

Lemma empty_false {A} (v : list A) : empty v = false <-> v <> [].
Proof. destruct v; simpl; split; congruence. Qed.

Lemma foldl_push_back {A B} (f : A -> B) (l : list A) :
  forall out, foldl (fun out a => push_back out (f a)) out l = out ++ (f <$> l).
Proof.
  induction l as [|a l IH]; intros out; simpl.
  - by rewrite app_nil_r.
  - rewrite IH. unfold push_back. by rewrite <- app_assoc.
Qed.

Lemma scanXYtoRT_fmap `{Libm} (input_scan_xy : list x_y) :
  scanXYtoRT input_scan_xy = XYtoRT <$> input_scan_xy.
Proof.
  unfold scanXYtoRT. destruct input_scan_xy as [|xy l]; [reflexivity|].
  cbn [empty]. by rewrite foldl_push_back.
Qed.

Lemma scanRTtoXY_fmap `{Libm} (input_scan_rt : list radius_theta) :
  scanRTtoXY input_scan_rt = RTtoXY <$> input_scan_rt.
Proof.
  unfold scanRTtoXY. destruct input_scan_rt as [|rt l]; [reflexivity|].
  cbn [empty]. by rewrite foldl_push_back.
Qed.

Lemma std_sort_nil `{StdSort} {A} (comp : A -> A -> bool) :
  std_sort comp [] = [].
Proof. apply Permutation_nil_r. apply std_sort_perm. Qed.

Lemma std_sort_length `{StdSort} {A} (comp : A -> A -> bool) (l : list A) :
  length (std_sort comp l) = length l.
Proof. apply Permutation_length, std_sort_perm. Qed.

Lemma compute_smallest_nil_inv (s : list radius_theta) :
  compute_smallest_r_within_delta_theta s = [] -> s = [].
Proof.
  intros Hs. apply length_zero_iff_nil.
  rewrite <- compute_smallest_length, Hs. reflexivity.
Qed.

(** After [getScanRT] an empty polar sequence means an empty Cartesian
    one, so a further call converts nothing. *)
Lemma getScanRT_convert_again `{Libm} `{StdSort} need_sort m :
  getScanRT_convert (getScanRT need_sort m).2 = (getScanRT need_sort m).2.
Proof.
  unfold getScanRT_convert at 1.
  destruct (empty (scan_rt_ (getScanRT need_sort m).2)) eqn:Hrt;
    [|reflexivity].
  apply empty_true in Hrt. simpl in Hrt.
  apply compute_smallest_nil_inv in Hrt.
  assert (scan_rt_ (getScanRT_convert m) = []) as Hrt1.
  { revert Hrt. unfold getScanRT_sort.
    destruct (getScanRT_sorts _ _); simpl; [|done].
    unfold thetaAscendingSortScanRT. intros Hrt.
    apply length_zero_iff_nil. rewrite <- (std_sort_length theta_less), Hrt.
    reflexivity. }
  assert (scan_xy_ m = []) as Hxy.
  { revert Hrt1. unfold getScanRT_convert.
    destruct (empty (scan_rt_ m)) eqn:E1, (empty (scan_xy_ m)) eqn:E2;
      simpl; intros Hnil.
    - by apply empty_true.
    - rewrite scanXYtoRT_fmap in Hnil. by apply fmap_nil_inv in Hnil.
    - by apply empty_true.
    - rewrite Hnil in E1. discriminate. }
  assert (scan_xy_ (getScanRT need_sort m).2 = []) as ->; [|reflexivity].
  simpl. unfold getScanRT_sort, getScanRT_convert.
  destruct (getScanRT_sorts _ _), (empty (scan_rt_ m) && negb (empty (scan_xy_ m)));
    simpl; done.
Qed.

(** With both sequences empty the getters have nothing to convert, sort
    or smooth. *)
Lemma getters_on_empty_sequences (L : Libm) (S : StdSort) (m : ScanMessage) :
  scan_xy_ m = [] -> scan_rt_ m = [] -> getters_return_empty m.
Proof.
  intros Hxy Hrt.
  unfold getters_return_empty, getScanXY, getScanRT, getScanRT_sort,
    getScanRT_convert.
  rewrite Hxy, Hrt. simpl. repeat split; try done.
  all: destruct (getScanRT_sorts need_sort m); simpl;
    rewrite ?Hxy, ?Hrt; unfold thetaAscendingSortScanRT;
    rewrite ?std_sort_nil; reflexivity.
Qed.

End ScanFacts.

Import ScanFacts.

(** ** Sorting by [theta] *)

Module ThetaOrder.

Lemma StronglySorted_weaken {A} (R R' : A -> A -> Prop) (l : list A) :
  (forall a b, a ∈ l -> b ∈ l -> R a b -> R' a b) ->
  StronglySorted R l -> StronglySorted R' l.
Proof.
  intros HR Hs. induction Hs as [|a l Hs IH Ha]; constructor.
  - apply IH. intros u v Hu Hv. apply HR; by apply list_elem_of_further.
  - rewrite Forall_forall in Ha |- *. intros b Hb. apply HR.
    + apply list_elem_of_here.
    + by apply list_elem_of_further.
    + by apply Ha.
Qed.

(** On samples whose bearings are numbers the lambda handed to [std::sort]
    is a strict weak ordering. *)
Lemma theta_less_strict_weak (l : list radius_theta) :
  Forall theta_is_number l -> strict_weak_ordering_on theta_less l.
Proof.
  intros Hnum. rewrite Forall_forall in Hnum. unfold theta_less.
  split.
  - intros a _. apply flt_irrefl.
  - intros a b c _ _ _. apply flt_trans.
  - intros a b c Ha Hb Hc Hab Hba Hbc Hcb.
    apply Hnum in Ha, Hb, Hc. unfold theta_is_number in *.
    apply not_flt_fle in Hab, Hba, Hbc, Hcb; try done.
    split; apply fle_not_flt; eapply fle_trans; eassumption.
Qed.

Lemma thetaAscendingSortScanRT_ascending `{StdSort}
    (scan_rt : list radius_theta) :
  Forall theta_is_number scan_rt ->
  theta_ascending (thetaAscendingSortScanRT scan_rt).
Proof.
  intros Hnum. unfold theta_ascending, thetaAscendingSortScanRT.
  eapply StronglySorted_weaken;
    [|apply std_sort_sorted, theta_less_strict_weak, Hnum].
  rewrite Forall_forall in Hnum.
  intros a b Ha Hb Hba. rewrite (std_sort_perm _ theta_less) in Ha, Hb.
  apply not_flt_fle; [by apply Hnum|by apply Hnum|exact Hba].
Qed.

(** Ascending order is a property of the bearings alone. *)
Lemma theta_ascending_fmap (s : list radius_theta) :
  theta_ascending s <->
  StronglySorted (fun a b => fle a b = true) (theta <$> s).
Proof.
  unfold theta_ascending. split.
  - induction 1 as [|a l Hs IH Ha]; simpl; constructor; [done|].
    by apply Forall_fmap.
  - induction s as [|a l IH]; simpl; intros Hs; [constructor|].
    apply StronglySorted_inv in Hs as [Hs Ha].
    constructor; [by apply IH|]. by apply Forall_fmap in Ha.
Qed.

Lemma compute_smallest_thetas (s : list radius_theta) :
  theta <$> compute_smallest_r_within_delta_theta s = theta <$> s.
Proof.
  apply list_eq. intros i.
  rewrite !list_lookup_fmap, compute_smallest_lookup.
  destruct (s !! i) as [p|]; simpl; [|reflexivity].
  by rewrite smallest_at_theta.
Qed.

Lemma compute_smallest_ascending (s : list radius_theta) :
  theta_ascending s ->
  theta_ascending (compute_smallest_r_within_delta_theta s).
Proof. rewrite !theta_ascending_fmap, compute_smallest_thetas. done. Qed.

End ThetaOrder.

Import ThetaOrder.

(** ** Repeated smoothing *)

Module Convergence.












End Convergence.

Import Convergence.

(** ** Finite bearings stay finite *)

Module FiniteBearings.

Lemma theta_is_finite_thetas (s : list radius_theta) :
  Forall theta_is_finite s
  <-> Forall (fun t => is_finite t = true) (theta <$> s).
Proof. rewrite Forall_fmap. reflexivity. Qed.

Lemma compute_smallest_finite (s : list radius_theta) :
  Forall theta_is_finite s ->
  Forall theta_is_finite (compute_smallest_r_within_delta_theta s).
Proof. rewrite !theta_is_finite_thetas, compute_smallest_thetas. done. Qed.

Lemma getScanRT_sort_finite `{Libm} `{StdSort} need_sort m :
  Forall theta_is_finite (scan_rt_ m) ->
  Forall theta_is_finite (scan_rt_ (getScanRT_sort need_sort m)).
Proof.
  unfold getScanRT_sort. destruct (getScanRT_sorts need_sort m); [|done].
  simpl. unfold thetaAscendingSortScanRT.
  by rewrite (std_sort_perm _ theta_less).
Qed.

(** A call that finds the flag set does not sort. *)
Lemma getScanRT_sort_when_set `{Libm} `{StdSort} need_sort m :
  sorted_by_theta_ m = true -> getScanRT_sort need_sort m = m.
Proof.
  intros Hset. unfold getScanRT_sort, getScanRT_sorts. rewrite Hset.
  by destruct need_sort.
Qed.

(** After [getScanRT(need_sort)] a call with the same [need_sort] does
    not sort: either [need_sort] is false or the flag has been set. *)
Lemma getScanRT_sort_again `{Libm} `{StdSort} need_sort m :
  getScanRT_sort need_sort (getScanRT need_sort m).2
  = (getScanRT need_sort m).2.
Proof.
  destruct need_sort; [|reflexivity].
  apply getScanRT_sort_when_set.
  unfold getScanRT, getScanRT_sort, getScanRT_sorts. cbn [fst snd].
  destruct (sorted_by_theta_ (getScanRT_convert m)) eqn:E; simpl;
    rewrite ?E; reflexivity.
Qed.

End FiniteBearings.

Import FiniteBearings.

(** ** The sample values *)

Example delta_theta_value : delta_theta = S754_finite false 13176795 (-32).
Proof. reflexivity. Qed.

Example sample_values_are_binary32 :
  Forall (fun a => valid_binary prec emax a = true)
    [ delta_theta; f_1; f_5; theta_0; half_delta_theta; twice_delta_theta;
      of_Z_exp 1 (-9); of_Z_exp 1 (-8) ].
Proof. repeat constructor. Qed.

Example chain_scan_passes :
  radius <$> compute_smallest_r_within_delta_theta chain_scan
    = [f_5; f_1; f_1]
  /\ radius <$> compute_smallest_r_within_delta_theta
                  (compute_smallest_r_within_delta_theta chain_scan)
    = [f_1; f_1; f_1].
Proof. split; reflexivity. Qed.

(** * The claims *)

(** C1.  On every polar sequence with finite bearings, sorted or not,
    [compute_smallest_r_within_delta_theta] replaces the radius of each
    sample [i] by the minimum radius over the contiguous run of samples
    reached leftward and rightward from [i] whose [theta] differs from
    that of [i] by at most [delta_theta], sample [i] included, and keeps
    the bearing.  The run is read from the copy taken before the loop, so
    the outer loop may visit the indices in any order.  On the three
    samples at bearings 0, [delta_theta/2], [2*delta_theta] with radii
    5, 1, 5 the radii become 1, 1, 5. *)
Theorem smoothing_is_window_minimum :
  (forall s, Forall theta_is_finite s ->
     compute_smallest_r_within_delta_theta s = smoothing_transform s)
  /\ (forall s i p,
        Forall theta_is_finite s -> Forall radius_is_number s ->
        s !! i = Some p ->
        p ∈ window s i (theta p)
        /\ (exists c, c ∈ window s i (theta p)
                      /\ radius c = radius (smoothed s i p))
        /\ (forall c, c ∈ window s i (theta p) ->
                      fle (radius (smoothed s i p)) (radius c) = true))
  /\ (forall s order, order ≡ₚ seq 0 (length s) ->
        foldl (for_body s) s order = compute_smallest_r_within_delta_theta s)
  /\ delta_theta = double_to_float (SFdiv 53 1024 (SFmul 53 1024 d_half M_PI) d_512)
  /\ compute_smallest_r_within_delta_theta boundary_scan
     = boundary_scan_smoothed.
Proof.
  split; [exact compute_smallest_is_smoothing|].
  split; [|split; [exact for_loop_any_order|split; reflexivity]].
  intros s i p Hth Hr Hp.
  assert (is_finite (theta p) = true) as Hfin.
  { rewrite Forall_forall in Hth. apply Hth. by eapply list_elem_of_lookup_2. }
  assert (is_nan (radius p) = false) as Hnum.
  { rewrite Forall_forall in Hr. apply Hr. by eapply list_elem_of_lookup_2. }
  assert (Forall radius_is_number (window s i (theta p))) as Hw.
  { rewrite Forall_forall in Hr |- *. intros c Hc. apply Hr.
    exact (window_subseteq _ _ _ _ Hc). }
  pose proof (window_self s i p Hp Hfin) as Hself.
  split; [exact Hself|]. split.
  - simpl. destruct (running_min_attained (window s i (theta p)) _ Hnum)
      as [->|Hc]; [by exists p|exact Hc].
  - intros c Hc. simpl. by apply running_min_lower_bound.
Qed.

Lemma smoothing_is_window_minimum_witness :
  compute_smallest_r_within_delta_theta boundary_scan
  = smoothing_transform boundary_scan.
Proof.
  apply (proj1 smoothing_is_window_minimum).
  repeat constructor.
Defined.

(** C2.  Immediately after [setScanXY], [setScanRT], [scan_xy_push_back] or
    [scan_rt_push_back], on any object and for any argument, exactly one
    of [scan_xy_] and [scan_rt_] is non-empty, or both are empty. *)
Theorem writes_keep_one_representation (m : ScanMessage) :
  (forall input_scan_xy, one_or_none_populated (setScanXY input_scan_xy m))
  /\ (forall input_scan_rt is_sorted,
        one_or_none_populated (setScanRT input_scan_rt is_sorted m))
  /\ (forall xy, one_or_none_populated (scan_xy_push_back xy m))
  /\ (forall rt in_order,
        one_or_none_populated (scan_rt_push_back rt in_order m)).
Proof.
  unfold one_or_none_populated, setScanXY, setScanRT, scan_xy_push_back,
    scan_rt_push_back, push_back.
  destruct m as [tp xy rt flag]; simpl.
  repeat split.
  - intros [|a v]; destruct rt; simpl; auto.
  - intros [|a v] _; destruct xy; simpl; auto.
  - intros a. destruct rt; simpl; left; (split; [|done]);
      by destruct xy.
  - intros a _. destruct xy; simpl; right; left; (split; [done|]);
      by destruct rt.
Qed.

(** C3.  One pass of [compute_smallest_r_within_delta_theta] keeps the
    length of the sequence and the bearing of every sample, and the radius
    it leaves at an index is never greater than the radius found there: it
    is less than or equal to it whenever the radius found is a number. *)
Theorem smoothing_never_raises_a_radius
    (s : list radius_theta) (i : nat) (p : radius_theta) :
  s !! i = Some p ->
  length (compute_smallest_r_within_delta_theta s) = length s
  /\ exists q,
       compute_smallest_r_within_delta_theta s !! i = Some q
       /\ theta q = theta p
       /\ fgt (radius q) (radius p) = false
       /\ (radius_is_number p -> fle (radius q) (radius p) = true).
Proof.
  intros Hp. split; [apply compute_smallest_length|].
  by apply compute_smallest_radius_le.
Qed.

Lemma smoothing_never_raises_a_radius_witness :
  length (compute_smallest_r_within_delta_theta boundary_scan) = 3
  /\ exists q,
       compute_smallest_r_within_delta_theta boundary_scan !! 0 = Some q
       /\ theta q = theta_0
       /\ fgt (radius q) f_5 = false
       /\ (radius_is_number (mk_rt f_5 theta_0) ->
           fle (radius q) f_5 = true).
Proof.
  apply (smoothing_never_raises_a_radius boundary_scan 0 (mk_rt f_5 theta_0)).
  reflexivity.
Defined.

(** C4.  Every call [getScanRT(need_sort)], for either value of
    [need_sort], returns the stored polar sequence passed through
    [compute_smallest_r_within_delta_theta] and stores that result; a
    second call with no write in between converts nothing and smooths the
    already smoothed sequence again.  On finite bearings what a call
    returns is the window minimum [smoothing_transform] of the stored
    sequence, and a second call returns the window minimum of the window
    minimum.  On the three samples with radii 5, 5, 1 of [chain_scan] the
    first call returns the radii 5, 1, 1 and the second 1, 1, 1. *)
Theorem getScanRT_smooths_on_every_call :
  (forall m, getScanRT_smooths_every_call m)
  /\ getScanRT_smooths_the_chain_twice.
Proof.
  split.
  - intros m L S need_sort stored first.
    assert (forall b, (getScanRT b first.2).1 =
              compute_smallest_r_within_delta_theta
                (scan_rt_ (getScanRT_sort b first.2))) as Hagain.
    { intros b. unfold getScanRT at 1. cbn [fst snd].
      unfold first. rewrite getScanRT_convert_again. reflexivity. }
    assert ((getScanRT need_sort first.2).1
            = compute_smallest_r_within_delta_theta first.1) as Hsame.
    { rewrite Hagain. unfold first. rewrite getScanRT_sort_again.
      reflexivity. }
    split; [reflexivity|]. split; [reflexivity|]. split; [exact Hagain|].
    split; [by rewrite Hagain|]. split; [exact Hsame|].
    intros Hfin.
    assert (Forall theta_is_finite stored) as Hstored
      by (by apply getScanRT_sort_finite).
    assert (first.1 = smoothing_transform stored) as Hfirst
      by (by apply compute_smallest_is_smoothing).
    assert (Forall theta_is_finite first.1) as Hfin1
      by (by apply compute_smallest_finite).
    split; [exact Hfirst|]. split; [|split].
    + intros b. rewrite Hagain. apply compute_smallest_is_smoothing.
      by apply getScanRT_sort_finite.
    + rewrite Hagain. cbn [getScanRT_sort getScanRT_sorts andb].
      rewrite <- Hfirst. by apply compute_smallest_is_smoothing.
    + rewrite Hsame, <- Hfirst. by apply compute_smallest_is_smoothing.
  - intros L S [|]; split; reflexivity.
Qed.

Lemma getScanRT_smooths_on_every_call_witness :
  getScanRT_returns_window_minimum (ScanMessage_of_rt chain_scan).
Proof.
  intros L S need_sort stored.
  destruct (proj1 getScanRT_smooths_on_every_call
              (ScanMessage_of_rt chain_scan) L S need_sort)
    as (_ & _ & _ & _ & _ & Hfin).
  destruct Hfin as (H1 & _ & _ & H2); [repeat constructor|].
  split; [exact H1|exact H2].
Defined.

(** C5, as the code has it.  Of two calls [getScanRT(true)] with no write
    in between, the second always finds the flag set, converts nothing and
    does not sort; the first returns a sequence in ascending order of
    [theta] when the flag tells the truth as it begins (and the bearings
    handed to [std::sort] are numbers). *)
Theorem two_sorted_calls_sort_once (m : ScanMessage) :
  second_call_does_not_sort m
  /\ (flag_is_truthful m -> first_call_returns_ascending m).
Proof.
  split.
  - intros L S first.
    assert (sorted_by_theta_ first.2 = true) as Hset.
    { unfold first, getScanRT, getScanRT_sort, getScanRT_sorts.
      cbn [fst snd].
      destruct (sorted_by_theta_ (getScanRT_convert m)) eqn:E; simpl;
        rewrite ?E; reflexivity. }
    split; [exact Hset|]. split; [apply getScanRT_convert_again|].
    unfold first. rewrite getScanRT_convert_again.
    unfold getScanRT_sorts. fold first. rewrite Hset. reflexivity.
  - intros Hflag L S Hnum.
    unfold getScanRT. cbn [fst snd with_scan_rt scan_rt_].
    apply compute_smallest_ascending.
    unfold getScanRT_sort, getScanRT_sorts.
    destruct (sorted_by_theta_ (getScanRT_convert m)) eqn:E; simpl.
    + revert E. unfold getScanRT_convert.
      destruct (empty (scan_rt_ m) && negb (empty (scan_xy_ m)));
        simpl; [discriminate|]. exact Hflag.
    + by apply thetaAscendingSortScanRT_ascending.
Qed.

Lemma two_sorted_calls_sort_once_witness :
  returns_ascending (ScanMessage_of_rt descending_scan).
Proof.
  intros L S.
  apply (proj2 (two_sorted_calls_sort_once (ScanMessage_of_rt descending_scan))).
  - unfold flag_is_truthful. simpl. discriminate.
  - repeat constructor.
Defined.

(** C5 as stated fails: an object given a descending sequence by
    [setScanRT(..., true)] has its flag set, so the first
    [getScanRT(true)] does not sort and returns the sequence in
    descending order of [theta]. *)
Lemma sorted_flag_can_lie :
  first_call_returns_unsorted
    (setScanRT descending_scan true (ScanMessage_of_tp 0%Z)).
Proof.
  intros L S. vm_compute. intros Hs.
  apply StronglySorted_inv in Hs as [_ Hs].
  apply Forall_cons in Hs as [Hs _]. discriminate Hs.
Qed.




(** C7.  [getScanXY] on an object whose Cartesian sequence is empty and
    whose polar sequence is not returns the polar samples mapped, index by
    index, to [(r * cosf(theta), r * sinf(theta))], stores them in
    [scan_xy_] and leaves [scan_rt_] as it was, so that both are
    populated. *)
Theorem getScanXY_derives_from_polar (m : ScanMessage) :
  scan_xy_ m = [] -> scan_rt_ m <> [] -> derives_cartesian_from_polar m.
Proof.
  intros Hxy Hrt L. unfold getScanXY.
  rewrite Hxy. apply empty_false in Hrt as Hrt'. rewrite Hrt'. simpl.
  rewrite scanRTtoXY_fmap.
  repeat split; try done.
  - intros i. by rewrite list_lookup_fmap.
  - intros Hnil. by apply fmap_nil_inv in Hnil.
Qed.

Lemma getScanXY_derives_from_polar_witness :
  derives_cartesian_from_polar (ScanMessage_of_rt boundary_scan).
Proof.
  apply getScanXY_derives_from_polar; [reflexivity|discriminate].
Defined.

(** C8.  [NaviStatusToString] on the seven enumerators: five are mapped to
    their names, [NORMAL] is mapped to the misspelt "NORNAL", and [MANUAL]
    has no branch and falls to "unknown". *)
Theorem NaviStatusToString_values :
  NaviStatusToString MANUAL = "unknown"%string
  /\ NaviStatusToString NORMAL = "NORNAL"%string
  /\ NaviStatusToString LOST = "LOST"%string
  /\ NaviStatusToString LOST_RECOVERY = "LOST_RECOVERY"%string
  /\ NaviStatusToString OBSTACLE_AVOID = "OBSTACLE_AVOID"%string
  /\ NaviStatusToString STOP = "STOP"%string
  /\ NaviStatusToString STANDBY = "STANDBY"%string.
Proof. repeat split. Qed.

(** C9.  On an object built by the no-argument constructor (whatever its
    flag holds) or by the time-point constructor and never written to,
    [getScanXY] and [getScanRT], for either value of [need_sort], return
    an empty sequence and leave both [scan_xy_] and [scan_rt_] empty; the
    getters are total functions, they have no failing path.  The same
    holds after the other constructors when they are given an empty
    sequence. *)
Theorem getters_on_a_fresh_object
    (L : Libm) (S : StdSort) (indeterminate : bool) (input_tp : time_point) :
  getters_return_empty (ScanMessage_default indeterminate)
  /\ getters_return_empty (ScanMessage_of_tp input_tp)
  /\ getters_return_empty (ScanMessage_of_xy [])
  /\ getters_return_empty (ScanMessage_of_rt [])
  /\ getters_return_empty (ScanMessage_of_xy_tp [] input_tp)
  /\ getters_return_empty (ScanMessage_of_rt_tp [] input_tp).
Proof.
  split; [|split; [|split; [|split; [|split]]]];
    by apply getters_on_empty_sequences.
Qed.

(** C10.  The five constructors with arguments set [sorted_by_theta_] to
    false; the no-argument constructor leaves in it whatever the storage
    held, which may be true, and [getScanRT(false)] passes that value
    on. *)
Theorem constructors_and_the_flag :
  (forall indeterminate,
     sorted_by_theta_ (ScanMessage_default indeterminate) = indeterminate)
  /\ sorted_by_theta_ (ScanMessage_default true) <> false
  /\ (forall (L : Libm) (S : StdSort) indeterminate,
        sorted_by_theta_ (getScanRT false (ScanMessage_default indeterminate)).2
        = indeterminate)
  /\ (forall tp, sorted_by_theta_ (ScanMessage_of_tp tp) = false)
  /\ (forall xy, sorted_by_theta_ (ScanMessage_of_xy xy) = false)
  /\ (forall rt, sorted_by_theta_ (ScanMessage_of_rt rt) = false)
  /\ (forall xy tp, sorted_by_theta_ (ScanMessage_of_xy_tp xy tp) = false)
  /\ (forall rt tp, sorted_by_theta_ (ScanMessage_of_rt_tp rt tp) = false).
Proof. repeat split. discriminate. Qed.

(** * Further properties of the code *)

(** ** Lemmas *)

Module FurtherFacts.

Lemma fmin_self (a : float) : fmin a a = a.
Proof.
  unfold fmin. destruct (fle a a); [reflexivity|].
  destruct (fgt a a); [reflexivity|]. destruct (is_nan a); reflexivity.
Qed.

Lemma fmin_choice (a b : float) : fmin a b = a \/ fmin a b = b.
Proof.
  unfold fmin. destruct (fle a b); [by left|].
  destruct (fgt a b); [by right|]. destruct (is_nan b); auto.
Qed.

Lemma fmin_le_left (a b : float) : fle a b = true -> fmin a b = a.
Proof. intros Hle. unfold fmin. by rewrite Hle. Qed.

(** A bearing is never beyond [delta_theta] of itself, whatever it is: the
    difference is zero or NaN, and neither compares greater. *)
Lemma fsub_self_not_beyond (a : float) :
  fgt (fabs (fsub a a)) delta_theta = false.
Proof.
  destruct (is_finite a) eqn:Hfin.
  - by rewrite fsub_self_zero.
  - destruct a as [[]|[]| |[] m e]; try discriminate Hfin; reflexivity.
Qed.

Lemma beyond_self (p : radius_theta) : beyond_delta_theta p p = false.
Proof. apply fsub_self_not_beyond. Qed.

Lemma take_smaller_self (p : radius_theta) : take_smaller p p = p.
Proof. destruct p as [r t]. unfold take_smaller. simpl. by rewrite fmin_self. Qed.

Lemma scan_radius_choice l :
  forall rt,
  radius (scan rt l) = radius rt
  \/ exists c, c ∈ l /\ radius (scan rt l) = radius c.
Proof.
  induction l as [|c l IH]; intros rt; simpl; [by left|].
  destruct (beyond_delta_theta c rt); [by left|].
  destruct (IH (take_smaller rt c)) as [Heq|(c' & Hc' & Heq)].
  - rewrite Heq. simpl. destruct (fmin_choice (radius rt) (radius c)) as [->| ->].
    + by left.
    + right. exists c. split; [apply list_elem_of_here|reflexivity].
  - right. exists c'. split; [by apply list_elem_of_further|done].
Qed.

Lemma smallest_at_radius_choice (s : list radius_theta) p i :
  s !! i = Some p ->
  exists c, c ∈ s /\ radius (smallest_at s p i) = radius c.
Proof.
  intros Hp. rewrite smallest_at_scan by (by eapply lookup_lt_Some).
  destruct (scan_radius_choice (rightward s i) (scan p (leftward s i)))
    as [Heq|(c & Hc & Heq)].
  - rewrite Heq.
    destruct (scan_radius_choice (leftward s i) p) as [->|(c & Hc & ->)].
    + exists p. split; [by eapply list_elem_of_lookup_2|reflexivity].
    + exists c. split; [exact (leftward_subseteq _ _ _ Hc)|reflexivity].
  - exists c. split; [exact (rightward_subseteq _ _ _ Hc)|exact Heq].
Qed.

Lemma compute_smallest_radii (s : list radius_theta) :
  Forall (fun q => exists p, p ∈ s /\ radius q = radius p)
    (compute_smallest_r_within_delta_theta s).
Proof.
  rewrite Forall_forall. intros q Hq.
  apply list_elem_of_lookup in Hq as [i Hq].
  rewrite compute_smallest_lookup in Hq.
  destruct (s !! i) as [p|] eqn:Hp; [|discriminate].
  injection Hq as <-. by apply smallest_at_radius_choice.
Qed.

(** A walk started from a radius that is at most every radius it meets
    changes nothing. *)
Lemma scan_from_least l :
  forall rt, (forall c, c ∈ l -> fle (radius rt) (radius c) = true) ->
  scan rt l = rt.
Proof.
  induction l as [|c l IH]; intros rt Hle; simpl; [reflexivity|].
  destruct (beyond_delta_theta c rt); [reflexivity|].
  assert (take_smaller rt c = rt) as ->.
  { destruct rt as [r t]. unfold take_smaller. simpl.
    rewrite fmin_le_left; [reflexivity|].
    apply (Hle c), list_elem_of_here. }
  apply IH. intros c' Hc'. apply Hle. by apply list_elem_of_further.
Qed.

(** A walk that meets the sample itself and then an entry beyond
    [delta_theta] stops there with the sample unchanged. *)
Lemma scan_self_then_beyond p l :
  match l with [] => True | c :: _ => beyond_delta_theta c p = true end ->
  scan p (p :: l) = p.
Proof.
  intros Hl. simpl. rewrite beyond_self, take_smaller_self.
  destruct l as [|c l]; simpl; [reflexivity|]. by rewrite Hl.
Qed.

Lemma smallest_at_isolated (s : list radius_theta) i p :
  neighbours_beyond s -> s !! i = Some p -> smallest_at s p i = p.
Proof.
  intros Hs Hp. rewrite smallest_at_scan by (by eapply lookup_lt_Some).
  assert (scan p (leftward s i) = p) as ->.
  { unfold leftward. rewrite (take_S_r _ _ _ Hp), reverse_snoc.
    apply scan_self_then_beyond.
    destruct i as [|i]; [done|].
    destruct (lookup_lt_is_Some_2 s i) as [c Hc];
      [apply lookup_lt_Some in Hp; lia|].
    rewrite (take_S_r _ _ _ Hc), reverse_snoc.
    by destruct (Hs i c p Hc Hp). }
  unfold rightward. rewrite (drop_S _ _ _ Hp).
  apply scan_self_then_beyond.
  destruct (s !! S i) as [q|] eqn:Hq.
  - rewrite (drop_S _ _ _ Hq). by destruct (Hs i p q Hp Hq).
  - apply lookup_ge_None_1 in Hq. by rewrite drop_ge.
Qed.

End FurtherFacts.

Import FurtherFacts.

(** ** compute_smallest_r_within_delta_theta *)

(** X1.  Smoothing invents no value: every radius of the result is the
    radius of some sample of the input, and the bearings of the result
    are those of the input, index by index.  No condition on the values:
    [fmin] always returns one of its two arguments. *)
Theorem smoothing_invents_no_radius (s : list radius_theta) :
  Forall (fun q => exists p, p ∈ s /\ radius q = radius p)
    (compute_smallest_r_within_delta_theta s)
  /\ theta <$> compute_smallest_r_within_delta_theta s = theta <$> s.
Proof. split; [apply compute_smallest_radii|apply compute_smallest_thetas]. Qed.

(** X2.  A sample whose radius is less than or equal to every radius of
    the sequence comes out of the smoothing unchanged: the closest return
    of a sweep is never lost. *)
Theorem least_radius_is_kept (s : list radius_theta) (i : nat)
    (p : radius_theta) :
  s !! i = Some p ->
  (forall c, c ∈ s -> fle (radius p) (radius c) = true) ->
  compute_smallest_r_within_delta_theta s !! i = Some p.
Proof.
  intros Hp Hleast. rewrite compute_smallest_lookup, Hp. simpl. f_equal.
  rewrite smallest_at_scan by (by eapply lookup_lt_Some).
  rewrite (scan_from_least (leftward s i) p).
  - apply scan_from_least. intros c Hc. apply Hleast.
    exact (rightward_subseteq _ _ _ Hc).
  - intros c Hc. apply Hleast. exact (leftward_subseteq _ _ _ Hc).
Qed.

Lemma least_radius_is_kept_witness :
  compute_smallest_r_within_delta_theta boundary_scan !! 1
  = Some (mk_rt f_1 half_delta_theta).
Proof.
  apply least_radius_is_kept; [reflexivity|].
  intros c Hc. unfold boundary_scan in Hc.
  repeat (apply elem_of_cons in Hc as [->|Hc]; [reflexivity|]).
  by apply elem_of_nil in Hc.
Defined.

(** X3.  When every two neighbours of the sequence are beyond
    [delta_theta] of each other, both loops stop at the first neighbour
    and the smoothing returns the sequence as it was. *)
Theorem separated_scan_is_unchanged (s : list radius_theta) :
  neighbours_beyond s -> compute_smallest_r_within_delta_theta s = s.
Proof.
  intros Hs. apply list_eq. intros i. rewrite compute_smallest_lookup.
  destruct (s !! i) as [p|] eqn:Hp; simpl; [|reflexivity].
  f_equal. by apply smallest_at_isolated.
Qed.

Lemma separated_scan_is_unchanged_witness :
  compute_smallest_r_within_delta_theta descending_scan = descending_scan.
Proof.
  apply separated_scan_is_unchanged.
  intros [|[|i]] p q Hp Hq; try discriminate Hq.
  injection Hp as <-. injection Hq as <-. split; reflexivity.
Defined.

(** ** Conversions, getters and writers *)

(** X4.  [scanXYtoRT] and [scanRTtoXY], which clear the output and push
    one converted sample per input sample, return a sequence of the
    length of the input whose entry at each index is the conversion
    ([XYtoRT], [RTtoXY]) of the input's entry at that index; on an empty
    input the output is empty. *)
Theorem conversions_preserve_indices (L : Libm) :
  (forall input_scan_xy,
     length (scanXYtoRT input_scan_xy) = length input_scan_xy
     /\ forall i, scanXYtoRT input_scan_xy !! i
                  = XYtoRT <$> input_scan_xy !! i)
  /\ (forall input_scan_rt,
        length (scanRTtoXY input_scan_rt) = length input_scan_rt
        /\ forall i, scanRTtoXY input_scan_rt !! i
                     = RTtoXY <$> input_scan_rt !! i)
  /\ scanXYtoRT [] = [] /\ scanRTtoXY [] = [].
Proof.
  split; [|split; [|split; reflexivity]].
  - intros l. rewrite scanXYtoRT_fmap. split; [apply length_fmap|].
    intros i. apply list_lookup_fmap.
  - intros l. rewrite scanRTtoXY_fmap. split; [apply length_fmap|].
    intros i. apply list_lookup_fmap.
Qed.

(** X5.  [getScanXY] is idempotent: a second call returns the same
    sequence and leaves the object as the first call left it; and the
    call changes neither the polar sequence, nor the flag, nor the time
    point. *)
Theorem getScanXY_twice (L : Libm) (m : ScanMessage) :
  getScanXY (getScanXY m).2 = getScanXY m
  /\ scan_rt_ (getScanXY m).2 = scan_rt_ m
  /\ sorted_by_theta_ (getScanXY m).2 = sorted_by_theta_ m
  /\ tp_ (getScanXY m).2 = tp_ m.
Proof.
  unfold getScanXY.
  destruct (empty (scan_xy_ m) && negb (empty (scan_rt_ m))) eqn:E;
    cbn [fst snd]; [|by rewrite E].
  apply andb_true_iff in E as [_ Hrt]. apply negb_true_iff in Hrt.
  split; [|done]. simpl. rewrite scanRTtoXY_fmap.
  destruct (scan_rt_ m); [discriminate Hrt|reflexivity].
Qed.

Lemma getScanRT_keeps_xy (L : Libm) (S : StdSort) need_sort m :
  scan_xy_ (getScanRT need_sort m).2 = scan_xy_ m.
Proof.
  simpl. unfold getScanRT_sort, getScanRT_convert.
  destruct (getScanRT_sorts _ _),
    (empty (scan_rt_ m) && negb (empty (scan_xy_ m))); reflexivity.
Qed.

Lemma getScanXY_returns_stored (L : Libm) m :
  scan_xy_ m <> [] \/ scan_rt_ m = [] -> (getScanXY m).1 = scan_xy_ m.
Proof.
  intros Hor. unfold getScanXY.
  destruct (empty (scan_xy_ m) && negb (empty (scan_rt_ m))) eqn:E;
    [|reflexivity].
  apply andb_true_iff in E as [Hxy Hrt].
  apply empty_true in Hxy. apply negb_true_iff, empty_false in Hrt.
  by destruct Hor.
Qed.

(** The Cartesian sequence is stored and, if it is empty, so is the polar
    one: [getScanXY] then returns the stored sequence, and [getScanRT]
    keeps this state of affairs. *)
Lemma getScanRT_keeps_stored_xy (L : Libm) (S : StdSort) v need_sort m :
  scan_xy_ m = v /\ (v <> [] \/ scan_rt_ m = []) ->
  scan_xy_ (getScanRT need_sort m).2 = v
  /\ (v <> [] \/ scan_rt_ (getScanRT need_sort m).2 = []).
Proof.
  intros [Hxy Hor]. split; [by rewrite getScanRT_keeps_xy|].
  destruct Hor as [Hv|Hrt]; [by left|].
  destruct (decide (v = [])) as [->|Hv]; [|by left]. right.
  pose proof (getters_on_empty_sequences L S m Hxy Hrt) as (_ & _ & _ & Hg).
  by destruct (Hg need_sort) as (_ & _ & ?).
Qed.

(** X6.  What [setScanXY] stores is what [getScanXY] returns, also after
    any number of calls of [getScanRT] in between: the smoothing of the
    polar view never reaches the Cartesian samples. *)
Theorem setScanXY_then_getScanXY (L : Libm) (S : StdSort)
    (input_scan_xy : list x_y) (m : ScanMessage) :
  (getScanXY (setScanXY input_scan_xy m)).1 = input_scan_xy
  /\ forall need_sorts : list bool,
       (getScanXY
          (foldl (fun m b => (getScanRT b m).2) (setScanXY input_scan_xy m)
             need_sorts)).1 = input_scan_xy.
Proof.
  assert (scan_xy_ (setScanXY input_scan_xy m) = input_scan_xy
          /\ (input_scan_xy <> []
              \/ scan_rt_ (setScanXY input_scan_xy m) = [])) as H0.
  { unfold setScanXY. destruct m as [tp xy rt flag]; simpl.
    destruct rt; auto. }
  assert (forall m', scan_xy_ m' = input_scan_xy
                     /\ (input_scan_xy <> [] \/ scan_rt_ m' = []) ->
                     (getScanXY m').1 = input_scan_xy) as Hget.
  { intros m' [Hxy Hor]. rewrite getScanXY_returns_stored; [done|].
    rewrite Hxy. exact Hor. }
  split; [by apply Hget|].
  intros need_sorts. apply Hget. revert H0.
  generalize (setScanXY input_scan_xy m).
  induction need_sorts as [|b bs IH]; intros m0 H0; simpl; [done|].
  apply IH. by apply getScanRT_keeps_stored_xy.
Qed.

Lemma scan_xy_push_back_rt xy m : scan_rt_ (scan_xy_push_back xy m) = [].
Proof.
  destruct m as [tp xys rts flag]. unfold scan_xy_push_back. simpl.
  by destruct rts.
Qed.

Lemma scan_rt_push_back_xy rt in_order m :
  scan_xy_ (scan_rt_push_back rt in_order m) = [].
Proof.
  destruct m as [tp xys rts flag]. unfold scan_rt_push_back. simpl.
  by destruct xys.
Qed.

Lemma scan_xy_push_back_xy xy m :
  scan_xy_ (scan_xy_push_back xy m) = scan_xy_ m ++ [xy].
Proof.
  destruct m as [tp xys rts flag]. unfold scan_xy_push_back, push_back.
  simpl. by destruct rts.
Qed.

Lemma scan_rt_push_back_rt rt in_order m :
  scan_rt_ (scan_rt_push_back rt in_order m) = scan_rt_ m ++ [rt].
Proof.
  destruct m as [tp xys rts flag]. unfold scan_rt_push_back, push_back.
  simpl. by destruct xys.
Qed.

Lemma append_all_xy_stored l :
  forall m, scan_xy_ (append_all_xy l m) = scan_xy_ m ++ l.
Proof.
  unfold append_all_xy.
  induction l as [|xy l IH]; intros m; cbn [foldl].
  - by rewrite app_nil_r.
  - by rewrite IH, scan_xy_push_back_xy, <- app_assoc.
Qed.

Lemma append_all_rt_stored l :
  forall m, scan_rt_ (append_all_rt l m) = scan_rt_ m ++ l.*1.
Proof.
  unfold append_all_rt.
  induction l as [|a l IH]; intros m; cbn [foldl fmap list_fmap].
  - by rewrite app_nil_r.
  - by rewrite IH, scan_rt_push_back_rt, <- app_assoc.
Qed.

Lemma append_all_rt_xy l :
  forall m, scan_xy_ m = [] -> scan_xy_ (append_all_rt l m) = [].
Proof.
  unfold append_all_rt.
  induction l as [|a l IH]; intros m Hm; cbn [foldl]; [done|].
  apply IH, scan_rt_push_back_xy.
Qed.

(** X7.  Samples appended one by one are stored in the order of the calls,
    after those already there; once a sample has been appended in one
    form the sequence of the other form is empty, and the flag is false
    after [scan_xy_push_back] and is the last [in_order] after
    [scan_rt_push_back]. *)
Theorem appended_samples_accumulate (m : ScanMessage) :
  (forall l, scan_xy_ (append_all_xy l m) = scan_xy_ m ++ l)
  /\ (forall l xy,
        scan_rt_ (append_all_xy (l ++ [xy]) m) = []
        /\ sorted_by_theta_ (append_all_xy (l ++ [xy]) m) = false)
  /\ (forall l, scan_rt_ (append_all_rt l m) = scan_rt_ m ++ l.*1)
  /\ (forall l a,
        scan_xy_ (append_all_rt (l ++ [a]) m) = []
        /\ sorted_by_theta_ (append_all_rt (l ++ [a]) m) = a.2).
Proof.
  split; [|split; [|split]].
  - intros l. apply append_all_xy_stored.
  - intros l xy. unfold append_all_xy. rewrite foldl_app. cbn [foldl].
    split; [apply scan_xy_push_back_rt|reflexivity].
  - intros l. apply append_all_rt_stored.
  - intros l a. unfold append_all_rt. rewrite foldl_app. cbn [foldl].
    split; [apply scan_rt_push_back_xy|reflexivity].
Qed.

(** X8.  Appending a sample in one form to an object holding samples in
    the other form does not convert them, it discards them: whatever was
    set, the object then holds that one sample and [scan_size] is 1. *)
Theorem append_in_other_form_discards (m : ScanMessage) :
  (forall input_scan_rt is_sorted xy,
     let m' := scan_xy_push_back xy (setScanRT input_scan_rt is_sorted m) in
     scan_xy_ m' = [xy] /\ scan_rt_ m' = [] /\ scan_size m' = 1)
  /\ (forall input_scan_xy rt in_order,
        let m' := scan_rt_push_back rt in_order (setScanXY input_scan_xy m) in
        scan_rt_ m' = [rt] /\ scan_xy_ m' = [] /\ scan_size m' = 1).
Proof.
  destruct m as [tp xys rts flag]. split.
  - intros v b xy. unfold scan_xy_push_back, setScanRT, scan_size, push_back.
    simpl. destruct xys, v; simpl; done.
  - intros v rt b. unfold scan_rt_push_back, setScanXY, scan_size, push_back.
    simpl. destruct rts, v; simpl; done.
Qed.

Lemma getScanRT_convert_length (L : Libm) m :
  length (scan_rt_ (getScanRT_convert m))
  = if empty (scan_rt_ m) && negb (empty (scan_xy_ m))
    then length (scan_xy_ m) else length (scan_rt_ m).
Proof.
  unfold getScanRT_convert.
  destruct (empty (scan_rt_ m) && negb (empty (scan_xy_ m)));
    [|reflexivity].
  simpl. rewrite scanXYtoRT_fmap. apply length_fmap.
Qed.

Lemma getScanRT_length (L : Libm) (S : StdSort) need_sort m :
  length (getScanRT need_sort m).1 = length (scan_rt_ (getScanRT_convert m)).
Proof.
  simpl. rewrite compute_smallest_length. unfold getScanRT_sort.
  destruct (getScanRT_sorts _ _); [|reflexivity].
  simpl. apply std_sort_length.
Qed.

(** X9.  The constructors and the writers leave an object whose two
    sequences, when both populated, have the same length; on such an
    object both getters return exactly [scan_size] samples, and they leave
    such an object with the same [scan_size]. *)
Theorem getters_return_scan_size :
  (forall indeterminate tp xy rt,
     Forall sizes_agree
       [ ScanMessage_default indeterminate; ScanMessage_of_tp tp;
         ScanMessage_of_xy xy; ScanMessage_of_rt rt;
         ScanMessage_of_xy_tp xy tp; ScanMessage_of_rt_tp rt tp ])
  /\ (forall m input_scan_xy input_scan_rt is_sorted xy rt in_order,
        Forall sizes_agree
          [ setScanXY input_scan_xy m; setScanRT input_scan_rt is_sorted m;
            scan_xy_push_back xy m; scan_rt_push_back rt in_order m;
            scan_clear m ])
  /\ (forall m, sizes_agree m -> getters_keep_size m).
Proof.
  split; [|split].
  - intros. repeat first [apply Forall_nil_2 | apply Forall_cons_2];
      unfold sizes_agree; simpl; auto.
  - intros [tp xys rts flag] v w b xy rt b'.
    repeat first [apply Forall_nil_2 | apply Forall_cons_2];
      unfold sizes_agree, setScanXY, setScanRT,
        scan_xy_push_back, scan_rt_push_back, push_back; simpl; auto.
    + destruct rts; simpl; auto.
    + destruct xys; simpl; auto.
    + destruct rts; simpl; auto.
    + destruct xys; simpl; auto.
  - intros m Hagree L S.
    assert (length (getScanXY m).1 = scan_size m
            /\ sizes_agree (getScanXY m).2
            /\ scan_size (getScanXY m).2 = scan_size m) as (H1 & H2 & H3).
    { unfold getScanXY, scan_size, sizes_agree.
      destruct m as [tp [|xy xys] [|rt rts] flag]; simpl; auto.
      rewrite scanRTtoXY_fmap. simpl. rewrite length_fmap. auto. }
    split; [exact H1|]. split; [exact H2|]. split; [exact H3|].
    intros need_sort.
    assert (length (getScanRT need_sort m).1 = scan_size m) as Hlen.
    { rewrite getScanRT_length, getScanRT_convert_length. unfold scan_size.
      destruct m as [tp [|xy xys] [|rt rts] flag]; simpl; auto.
      destruct Hagree as [?|[?|Hagree]]; done. }
    split; [exact Hlen|].
    assert (scan_rt_ (getScanRT need_sort m).2 = (getScanRT need_sort m).1)
      as Hrt by reflexivity.
    unfold sizes_agree, scan_size.
    rewrite getScanRT_keeps_xy, Hrt, Hlen. unfold scan_size.
    destruct (scan_xy_ m); simpl; auto.
Qed.

Lemma getters_return_scan_size_witness :
  getters_keep_size (ScanMessage_of_rt boundary_scan).
Proof.
  apply (proj2 (proj2 getters_return_scan_size)).
  unfold sizes_agree. simpl. auto.
Defined.

(** X10.  [getScanRT] returns the bearings of the stored polar sequence
    (or of the conversion of the Cartesian one), rearranged when it sorts
    and in the stored order when [need_sort] is false; and every radius
    it returns is a radius of that sequence. *)
Theorem getScanRT_rearranges_the_samples
    (L : Libm) (S : StdSort) (need_sort : bool) (m : ScanMessage) :
  theta <$> (getScanRT need_sort m).1
    ≡ₚ theta <$> scan_rt_ (getScanRT_convert m)
  /\ theta <$> (getScanRT false m).1 = theta <$> scan_rt_ (getScanRT_convert m)
  /\ Forall (fun q => exists p, p ∈ scan_rt_ (getScanRT_convert m)
                                /\ radius q = radius p)
       (getScanRT need_sort m).1.
Proof.
  assert (scan_rt_ (getScanRT_sort need_sort (getScanRT_convert m))
          ≡ₚ scan_rt_ (getScanRT_convert m)) as Hperm.
  { unfold getScanRT_sort. destruct (getScanRT_sorts _ _); [|reflexivity].
    simpl. apply std_sort_perm. }
  split; [|split].
  - simpl. rewrite compute_smallest_thetas. by rewrite Hperm.
  - simpl. rewrite compute_smallest_thetas. reflexivity.
  - simpl. eapply Forall_impl; [apply compute_smallest_radii|].
    intros q (p & Hp & Hq). exists p. split; [|done]. by rewrite <- Hperm.
Qed.

(** X11.  Once [getScanXY] has been called, and as long as no writer is
    called, it keeps returning the same sequence however often
    [getScanRT] is called in between: a Cartesian view derived from polar
    samples is not derived again after [getScanRT] has smoothed them. *)
Theorem cartesian_view_is_not_refreshed
    (L : Libm) (S : StdSort) (m : ScanMessage) (need_sorts : list bool) :
  (getScanXY
     (foldl (fun m b => (getScanRT b m).2) (getScanXY m).2 need_sorts)).1
  = (getScanXY m).1.
Proof.
  assert (scan_xy_ (getScanXY m).2 = (getScanXY m).1
          /\ ((getScanXY m).1 <> [] \/ scan_rt_ (getScanXY m).2 = [])) as H0.
  { split; [reflexivity|]. unfold getScanXY.
    destruct m as [tp [|xy xys] [|rt rts] flag]; simpl; auto.
    left. rewrite scanRTtoXY_fmap. done. }
  revert H0. generalize (getScanXY m).1 (getScanXY m).2. intros v m0.
  revert m0. induction need_sorts as [|b bs IH]; intros m0 H0; cbn [foldl].
  - rewrite getScanXY_returns_stored; [tauto|].
    destruct H0 as [-> ?]. done.
  - apply IH. by apply getScanRT_keeps_stored_xy.
Qed.

(** X12.  The flag tells the truth after every constructor and after every
    writer that is not told the data is sorted; and the getters keep it
    truthful.  So it can only come to lie through [setScanRT(..., true)]
    or [scan_rt_push_back(..., true)]. *)
Theorem flag_lies_only_on_request :
  (forall indeterminate tp xy rt,
     Forall flag_is_truthful
       [ ScanMessage_default indeterminate; ScanMessage_of_tp tp;
         ScanMessage_of_xy xy; ScanMessage_of_rt rt;
         ScanMessage_of_xy_tp xy tp; ScanMessage_of_rt_tp rt tp ])
  /\ (forall m input_scan_xy input_scan_rt xy rt,
        Forall flag_is_truthful
          [ setScanXY input_scan_xy m; setScanRT input_scan_rt false m;
            scan_xy_push_back xy m; scan_rt_push_back rt false m;
            scan_clear m ])
  /\ (forall m, flag_is_truthful m -> getters_keep_flag_truthful m).
Proof.
  split; [|split].
  - intros. repeat first [apply Forall_nil_2 | apply Forall_cons_2];
      unfold flag_is_truthful; simpl; try discriminate.
    intros _. constructor.
  - intros [tp xys rts flag] v w xy rt.
    repeat first [apply Forall_nil_2 | apply Forall_cons_2];
      unfold flag_is_truthful, setScanXY, setScanRT,
        scan_xy_push_back, scan_rt_push_back, scan_clear; simpl;
      try discriminate; try (destruct xys; simpl; discriminate).
    destruct rts; simpl; intros _; constructor.
  - intros m Htruth L S. split.
    + unfold flag_is_truthful in *.
      destruct (getScanXY_twice L m) as (_ & -> & -> & _). exact Htruth.
    + intros need_sort Hnum. unfold flag_is_truthful. intros Hflag.
      change (scan_rt_ (getScanRT need_sort m).2)
        with (compute_smallest_r_within_delta_theta
                (scan_rt_ (getScanRT_sort need_sort (getScanRT_convert m)))).
      apply compute_smallest_ascending.
      change (sorted_by_theta_ (getScanRT need_sort m).2)
        with (sorted_by_theta_
                (getScanRT_sort need_sort (getScanRT_convert m))) in Hflag.
      revert Hflag. unfold getScanRT_sort.
      destruct (getScanRT_sorts need_sort (getScanRT_convert m)); simpl.
      * intros _. by apply thetaAscendingSortScanRT_ascending.
      * unfold getScanRT_convert.
        destruct (empty (scan_rt_ m) && negb (empty (scan_xy_ m))); simpl;
          [discriminate|]. exact Htruth.
Qed.

Lemma flag_lies_only_on_request_witness :
  flag_truthful_after_getters (ScanMessage_of_rt descending_scan).
Proof.
  intros L S.
  destruct (proj2 (proj2 flag_lies_only_on_request)
              (ScanMessage_of_rt descending_scan)) with (L := L) (S := S)
    as [Hxy Hrt].
  - unfold flag_is_truthful. simpl. discriminate.
  - split; [exact Hxy|]. intros need_sort. apply Hrt. repeat constructor.
Defined.

(** X13.  [scan_size] counts what the writers stored: the length of the
    sequence given to [setScanXY] or [setScanRT], one more than the
    sequence of the same form held before a [push_back], nothing after
    [scan_clear], and the number of samples appended to a cleared
    object. *)
Theorem scan_size_after_writes (m : ScanMessage) :
  (forall input_scan_xy,
     scan_size (setScanXY input_scan_xy m) = length input_scan_xy)
  /\ (forall input_scan_rt is_sorted,
        scan_size (setScanRT input_scan_rt is_sorted m)
        = length input_scan_rt)
  /\ (forall xy,
        scan_size (scan_xy_push_back xy m) = Datatypes.S (length (scan_xy_ m)))
  /\ (forall rt in_order,
        scan_size (scan_rt_push_back rt in_order m)
        = Datatypes.S (length (scan_rt_ m)))
  /\ scan_size (scan_clear m) = 0
  /\ (forall l, scan_size (append_all_xy l (scan_clear m)) = length l)
  /\ (forall l, scan_size (append_all_rt l (scan_clear m)) = length l).
Proof.
  unfold scan_size.
  split; [|split; [|split; [|split; [|split; [reflexivity|split]]]]].
  - intros v. destruct m as [tp xys rts flag]. unfold setScanXY. simpl.
    by destruct rts, v.
  - intros v b. destruct m as [tp xys rts flag]. unfold setScanRT. simpl.
    by destruct xys.
  - intros xy. rewrite scan_xy_push_back_xy, length_app, Nat.add_1_r.
    by destruct (scan_xy_ m).
  - intros rt b.
    rewrite scan_rt_push_back_xy, scan_rt_push_back_rt, length_app,
      Nat.add_1_r. reflexivity.
  - intros l. rewrite append_all_xy_stored. simpl.
    destruct l; [|reflexivity].
    unfold append_all_xy. reflexivity.
  - intros l. rewrite append_all_rt_xy by reflexivity. simpl.
    rewrite append_all_rt_stored. simpl. apply length_fmap.
Qed.

(** ** WayPoint and NaviStatus *)

(** X14.  [WayPoint::operator<] compares time stamps only.  It is
    irreflexive, asymmetric and transitive on all way points, and on way
    points whose time stamps are numbers it is a strict weak ordering,
    which is what [std::sort] on a [VecWayPoint] needs.  A
    default-constructed way point (time stamp -1) is less than every way
    point whose time stamp is at least 0, and two default-constructed way
    points are not less than each other. *)
Theorem WayPoint_lt_is_an_ordering :
  (forall a, WayPoint_lt a a = false)
  /\ (forall a b, WayPoint_lt a b = true -> WayPoint_lt b a = false)
  /\ (forall a b c,
        WayPoint_lt a b = true -> WayPoint_lt b c = true ->
        WayPoint_lt a c = true)
  /\ (forall l, Forall timestamp_is_number l ->
                strict_weak_ordering_on WayPoint_lt l)
  /\ (forall indeterminate w,
        fle (S754_zero false) (timestamp_sec w) = true ->
        WayPoint_lt (WayPoint_default indeterminate) w = true)
  /\ (forall indeterminate indeterminate',
        WayPoint_lt (WayPoint_default indeterminate)
          (WayPoint_default indeterminate') = false).
Proof.
  unfold WayPoint_lt.
  split; [|split; [|split; [|split; [|split]]]].
  - intros a. apply flt_irrefl.
  - intros a b Hab. apply fle_not_flt. by apply flt_fle.
  - intros a b c. apply flt_trans.
  - intros l Hnum. rewrite Forall_forall in Hnum. split.
    + intros a _. apply flt_irrefl.
    + intros a b c _ _ _. apply flt_trans.
    + intros a b c Ha Hb Hc Hab Hba Hbc Hcb.
      apply Hnum in Ha, Hb, Hc. unfold timestamp_is_number in *.
      apply not_flt_fle in Hab, Hba, Hbc, Hcb; try done.
      split; apply fle_not_flt; eapply fle_trans; eassumption.
  - intros g w Hw. simpl.
    by apply (flt_fle_trans minus_one (S754_zero false)).
  - reflexivity.
Qed.

Lemma WayPoint_lt_is_an_ordering_witness :
  strict_weak_ordering_on WayPoint_lt
    [ WayPoint_default (mk_Vector3f f_1 f_1 f_1);
      mk_WayPoint f_5 (mk_Vector3f f_1 f_5 f_1) (mk_Vector3f f_1 f_1 f_1) 0 ].
Proof.
  apply (proj1 (proj2 (proj2 (proj2 WayPoint_lt_is_an_ordering)))).
  repeat constructor.
Defined.

(** X15.  [NaviStatusToString] gives the seven enumerators seven
    different strings, so the status can be read back from its name
    (with "NORNAL" for [NORMAL] and "unknown" for [MANUAL]). *)
Theorem NaviStatusToString_is_injective (a b : NaviStatus) :
  NaviStatusToString a = NaviStatusToString b -> a = b.
Proof. destruct a, b; intros H; try reflexivity; discriminate H. Qed.

Lemma NaviStatusToString_is_injective_witness : MANUAL = MANUAL.
Proof. apply NaviStatusToString_is_injective. reflexivity. Defined.

(** ** The time point and [scan_clear] *)

(** X16.  The time point is independent of the samples: [getTimePoint]
    returns what [setTimePoint] stored, [setTimePoint] changes neither
    sequence nor the flag, and no writer or getter of the samples changes
    the time point. *)
Theorem time_point_is_independent
    (L : Libm) (S : StdSort) (m : ScanMessage) (input_tp : time_point) :
  getTimePoint (setTimePoint input_tp m) = input_tp
  /\ scan_xy_ (setTimePoint input_tp m) = scan_xy_ m
  /\ scan_rt_ (setTimePoint input_tp m) = scan_rt_ m
  /\ sorted_by_theta_ (setTimePoint input_tp m) = sorted_by_theta_ m
  /\ (forall v, getTimePoint (setScanXY v m) = getTimePoint m)
  /\ (forall v b, getTimePoint (setScanRT v b m) = getTimePoint m)
  /\ (forall xy, getTimePoint (scan_xy_push_back xy m) = getTimePoint m)
  /\ (forall rt b, getTimePoint (scan_rt_push_back rt b m) = getTimePoint m)
  /\ getTimePoint (scan_clear m) = getTimePoint m
  /\ getTimePoint (getScanXY m).2 = getTimePoint m
  /\ (forall b, getTimePoint (getScanRT b m).2 = getTimePoint m).
Proof.
  unfold getTimePoint.
  split; [reflexivity|]. split; [reflexivity|]. split; [reflexivity|].
  split; [reflexivity|].
  destruct m as [tp xys rts flag].
  split; [intros v; unfold setScanXY; simpl; by destruct rts|].
  split; [intros v b; unfold setScanRT; simpl; by destruct xys|].
  split; [intros xy; unfold scan_xy_push_back; simpl; by destruct rts|].
  split; [intros rt b; unfold scan_rt_push_back; simpl; by destruct xys|].
  split; [reflexivity|].
  split.
  - unfold getScanXY. simpl.
    by destruct (empty xys && negb (empty rts)).
  - intros b. simpl. unfold getScanRT_sort, getScanRT_convert. simpl.
    destruct (empty rts && negb (empty xys)); simpl;
      by destruct (getScanRT_sorts b _).
Qed.

(** X17.  [scan_clear] leaves exactly the object the time-point
    constructor builds from the object's time point: both sequences
    empty and the flag false, also when the flag was left indeterminate
    by the no-argument constructor. *)
Theorem scan_clear_is_a_fresh_object (m : ScanMessage) :
  scan_clear m = ScanMessage_of_tp (getTimePoint m)
  /\ forall indeterminate,
       scan_clear (ScanMessage_default indeterminate) = ScanMessage_of_tp 0%Z.
Proof. split; reflexivity. Qed.
